(** * NumericalQuantum-APMTH205: [discretized_schrodinger]

    A shallow embedding of the single function of [main-notebook.ipynb],
    [discretized_schrodinger], which discretizes the 1D time-independent
    Schroedinger equation on a uniform mesh and asks a tridiagonal
    eigensolver for the lowest eigenpairs.

    The function is modelled twice.
    - Over exact rationals ([Qc], canonical fractions with Leibniz
      equality), for the statements that do not depend on how a float is
      rounded: lengths, error paths, ordering, and what the result does
      not depend on.  In this model the arguments [a], [b], [mass] and
      [hbar] are finite numbers, and the only non-finite values are those
      that exact arithmetic can produce (a division by zero inside
      [np.power], a potential that returns [inf] or [nan]), kept as the
      extra value [NonFinite] of [npfloat].
    - Over IEEE 754 binary64 numbers (module [B64], on [PrimFloat]), for
      the statements about the values the program computes: the mesh, the
      entries of the diagonals, the energies.

    Conventions of both models.
    - A Python exception is a value of [exn]; fallible code returns
      [result], sequenced with a small error monad.
    - numpy arrays are lists; a 2D array is the list of its rows.
    - The numerical kernel behind [scipy.linalg.eigh_tridiagonal] (LAPACK
      bisection and inverse iteration) is not part of the repository.  It is
      a parameter of the development; the Python wrapper around it
      (finiteness check, shape check, index-range check, reordering by
      [argsort]) is written out. *)

From Stdlib Require Import List ZArith QArith Qcanon Lia Bool.
From Stdlib Require Qcabs.
From Stdlib Require Import Sorted Permutation.
From Stdlib Require Import Floats Uint63.
Import ListNotations.

Local Open Scope Z_scope.
Set Warnings "-inexact-float".

(** ** Exceptions and the error monad *)

Module Py.

Inductive exn : Set :=
| ValueError
| IndexError
| ZeroDivisionError
| LinAlgError
| UserError (code : nat).

Inductive result (A : Type) : Type :=
| Ok (a : A)
| Raise (e : exn).

Arguments Ok {A} a.
Arguments Raise {A} e.

Definition bind {A B : Type} (r : result A) (f : A -> result B) : result B :=
  match r with
  | Ok a => f a
  | Raise e => Raise e
  end.

Definition succeeds {A : Type} (r : result A) : Prop := exists a, r = Ok a.
Definition fails {A : Type} (r : result A) : Prop := exists e, r = Raise e.

Fixpoint mapM {A B : Type} (f : A -> result B) (l : list A) : result (list B) :=
  match l with
  | [] => Ok []
  | x :: t =>
      bind (f x) (fun y => bind (mapM f t) (fun ys => Ok (y :: ys)))
  end.

End Py.

Import Py.

Notation "x <- c1 ;; c2" := (Py.bind c1 (fun x => c2))
  (at level 61, c1 at next level, right associativity).
Notation "' pat <- c1 ;; c2" := (Py.bind c1 (fun x => match x with pat => c2 end))
  (at level 61, pat pattern, c1 at next level, right associativity).

(** ** Numbers *)

Definition Z2Qc (z : Z) : Qc := Q2Qc (inject_Z z).
Definition half : Qc := Q2Qc (1 # 2).

(** A numpy [float64] array element: a finite value or [inf]/[nan]. *)
Inductive npfloat : Set :=
| Fin (q : Qc)
| NonFinite.

Definition fadd (x y : npfloat) : npfloat :=
  match x, y with
  | Fin p, Fin q => Fin (p + q)%Qc
  | _, _ => NonFinite
  end.

Definition fmul (x y : npfloat) : npfloat :=
  match x, y with
  | Fin p, Fin q => Fin (p * q)%Qc
  | _, _ => NonFinite
  end.

(** ** The numpy functions used by [discretized_schrodinger] *)

Module Np.

(** [np.arange(0, n)] *)
Definition arange (n : nat) : list Qc :=
  map (fun i => Z2Qc (Z.of_nat i)) (seq 0 n).

(** [y[-1] = v] on a non-empty array. *)
Definition set_last (y : list Qc) (v : Qc) : list Qc :=
  match y with
  | [] => []
  | _ => removelast y ++ [v]
  end.

(** [np.linspace(start, stop, num)] with [endpoint=True]:
    a negative [num] raises [ValueError]; otherwise
    [y = arange(0, num) * step + start] with [step = (stop - start) / (num - 1)],
    and [y[-1] = stop] when [num > 1].  With [num <= 1] the samples are
    [arange(0, num) * (stop - start) + start]. *)
Definition linspace (start stop : Qc) (num : Z) : result (list Qc) :=
  if num <? 0 then Raise ValueError
  else
    let div := num - 1 in
    let delta := (stop - start)%Qc in
    let y :=
      if 0 <? div then
        let step := (delta / Z2Qc div)%Qc in
        map (fun i => (i * step + start)%Qc) (arange (Z.to_nat num))
      else
        map (fun i => (i * delta + start)%Qc) (arange (Z.to_nat num)) in
    Ok (if 1 <? num then set_last y stop else y).

(** [np.diff(xs)]: consecutive differences [xs[i+1] - xs[i]]. *)
Definition diff (xs : list Qc) : list Qc :=
  map (fun p => (snd p - fst p)%Qc) (combine xs (tl xs)).

(** [arr[0]] *)
Definition getitem0 (l : list Qc) : result Qc :=
  match l with
  | [] => Raise IndexError
  | x :: _ => Ok x
  end.

(** [np.power(x, -2.0)]: [inf] at zero (numpy warns, it does not raise). *)
Definition power_m2 (x : Qc) : npfloat :=
  if Qc_eq_bool x 0 then NonFinite else Fin (/ (x ^ 2))%Qc.

(** [arr[1:-1]] *)
Definition slice_inner {A : Type} (l : list A) : list A := removelast (tl l).

(** [np.ones(n)]: a negative dimension raises [ValueError]. *)
Definition ones (n : Z) : result (list npfloat) :=
  if n <? 0 then Raise ValueError else Ok (repeat (Fin 1%Qc) (Z.to_nat n)).

(** [len(arr)] *)
Definition len {A : Type} (l : list A) : Z := Z.of_nat (length l).

(** [arr[order]] (fancy indexing with in-range indices). *)
Definition take {A : Type} (d : A) (order : list nat) (l : list A) : list A :=
  map (fun i => nth i l d) order.

(** Number of columns of a 2D array given as the list of its rows. *)
Definition ncols {A : Type} (m : list (list A)) : nat :=
  match m with
  | [] => 0%nat
  | r :: _ => length r
  end.

(** [arr.T] of a 2D array. *)
Definition transpose (m : list (list Qc)) : list (list Qc) :=
  map (fun j => map (fun row => nth j row 0%Qc) m) (seq 0 (ncols m)).

(** Insertion of an index into a list of indices ordered by their keys;
    an index goes before the indices of equal keys. *)
Fixpoint insert_by (w : list Qc) (i : nat) (order : list nat) : list nat :=
  match order with
  | [] => [i]
  | j :: t =>
      if Qclt_le_dec (nth j w 0%Qc) (nth i w 0%Qc)
      then j :: insert_by w i t
      else i :: j :: t
  end.

(** [np.argsort(w)]: the indices that sort [w] ascending (indices of equal
    keys are kept in increasing order). *)
Definition argsort (w : list Qc) : list nat :=
  fold_right (insert_by w) [] (seq 0 (length w)).

End Np.

(** ** Potentials *)

(** [potentialFunction] is called once, on the whole mesh array, and may
    raise. *)
Definition potential := list Qc -> result (list npfloat).

(** A potential given pointwise by a function that may raise. *)
Definition vectorized (V : Qc -> result npfloat) : potential := mapM V.

(** A potential given pointwise by a function that returns a value (possibly
    non-finite) everywhere. *)
Definition pointwise (V : Qc -> npfloat) : potential := fun xs => Ok (map V xs).

(** ** The discretization step (notebook lines 38-47) *)

Definition discretize (potentialFunction : potential)
    (initialBoundaryPoint finalBoundaryPoint : Qc) (numPosSteps : Z) (mass : Qc)
  : result (list npfloat * list npfloat) :=
  xs <- Np.linspace initialBoundaryPoint finalBoundaryPoint (numPosSteps + 2) ;;
  dx <- Np.getitem0 (Np.diff xs) ;;
  Vx <- potentialFunction xs ;;
  let main_diag :=
    Np.slice_inner (map (fun v => fadd (Np.power_m2 dx) (fmul (Fin mass) v)) Vx) in
  one <- Np.ones (Np.len main_diag - 1) ;;
  let off_diag :=
    map (fun o => fmul (fmul (Np.power_m2 dx) (Fin (- half)%Qc)) o) one in
  Ok (main_diag, off_diag).

(** ** The eigensolver call (notebook lines 51-57) *)

(** The LAPACK pair behind [eigh_tridiagonal] with [select='i']: from the
    finite diagonals and the 1-based index range [il..iu] it returns the
    selected eigenvalues [w] (in LAPACK's block order) and the 2D array [v]
    whose column [j] is the eigenvector of [w[j]], or reports a failure. *)
Definition lapack_kernel : Type :=
  list Qc -> list Qc -> Z -> Z -> result (list Qc * list (list Qc)).

(** [hbar / mass] on Python floats. *)
Definition py_div (x y : Qc) : result Qc :=
  if Qc_eq_bool y 0 then Raise ZeroDivisionError else Ok (x / y)%Qc.

Module Scipy.

(** [_asarray_validated(a, check_finite=True)] *)
Definition asarray_validated (a : list npfloat) : result (list Qc) :=
  mapM (fun x => match x with Fin q => Ok q | NonFinite => Raise ValueError end) a.

(** [_check_select('i', select_range, 0, max_len)]: the range must be
    non-decreasing and, once shifted to 1-based indices, lie in
    [1..max_len]. *)
Definition check_select (select_range : Z * Z) (max_len : Z) : result (Z * Z) :=
  let '(lo, hi) := select_range in
  if hi <? lo then Raise ValueError
  else
    let il := lo + 1 in
    let iu := hi + 1 in
    if (Z.min il iu <? 1) || (max_len <? Z.max il iu) then Raise ValueError
    else Ok (il, iu).

Section Solver.

Variable kernel : lapack_kernel.

(** [scipy.linalg.eigh_tridiagonal(d, e, eigvals_only=False, select='i',
    select_range=...)] *)
Definition eigh_tridiagonal (d e : list npfloat) (select_range : Z * Z)
  : result (list Qc * list (list Qc)) :=
  d <- asarray_validated d ;;
  e <- asarray_validated e ;;
  if negb (Np.len d =? Np.len e + 1) then Raise ValueError
  else
    ' (il, iu) <- check_select select_range (Np.len d) ;;
    ' (w, v) <- kernel d e il iu ;;
    let order := Np.argsort w in
    let w := Np.take 0%Qc order w in
    let v := map (Np.take 0%Qc order) v in
    Ok (w, map (firstn (length w)) v).

End Solver.

End Scipy.

(** ** [discretized_schrodinger] *)

Section Schrodinger.

Variable kernel : lapack_kernel.

Definition discretized_schrodinger (potentialFunction : potential)
    (initialBoundaryPoint finalBoundaryPoint : Qc)
    (numPosSteps numEigVals : Z) (mass hbar : Qc)
  : result (list Qc * list (list Qc)) :=
  ' (main_diag, off_diag) <-
    discretize potentialFunction initialBoundaryPoint finalBoundaryPoint
      numPosSteps mass ;;
  ' (eigvals, eigstates) <-
    Scipy.eigh_tridiagonal kernel main_diag off_diag (0, numEigVals - 1) ;;
  scale <- py_div hbar mass ;;
  Ok (map (fun w => (scale * w)%Qc) eigvals, Np.transpose eigstates).

End Schrodinger.

(** ** Auxiliary definitions used by the statements *)

(** The diagonals built from the spacing [dx] and the potential samples
    [Vx], as the body of [discretize] writes them. *)
Definition main_of (dx mass : Qc) (Vx : list npfloat) : list npfloat :=
  Np.slice_inner (map (fun v => fadd (Np.power_m2 dx) (fmul (Fin mass) v)) Vx).

Definition off_of (dx : Qc) (n : nat) : list npfloat :=
  map (fun o => fmul (fmul (Np.power_m2 dx) (Fin (- half)%Qc)) o)
      (repeat (Fin 1%Qc) n).

(** The mesh point [x_i = a + i * dx] with [dx = (b - a) / (N + 1)]. *)
Definition mesh_point (a b : Qc) (N : Z) (i : nat) : Qc :=
  (a + Z2Qc (Z.of_nat i) * ((b - a) / Z2Qc (N + 1)))%Qc.

(** The tridiagonal Hamiltonian of a finite-valued potential on the mesh:
    the main diagonal [dx^-2 + mass * V(x_i)], [i = 1..N], and the constant
    off-diagonal of length [N - 1], in the order the code multiplies its
    factors. *)
Definition hamiltonian (V : Qc -> Qc) (a b : Qc) (N : Z) (mass : Qc)
  : list Qc * list Qc :=
  let dx := ((b - a) / Z2Qc (N + 1))%Qc in
  (map (fun i => (/ dx ^ 2 + mass * V (mesh_point a b N i))%Qc)
       (seq 1 (Z.to_nat N)),
   repeat (/ dx ^ 2 * - half * 1)%Qc (Z.to_nat N - 1)).

(** A finite-valued potential as a [potential]. *)
Definition finite_potential (V : Qc -> Qc) : potential :=
  pointwise (fun x => Fin (V x)).

(** The order in which [argsort] compares two indices of [w]. *)
Definition key_le (w : list Qc) (i j : nat) : Prop :=
  (nth i w 0%Qc <= nth j w 0%Qc)%Qc.

(** The eigenvector array after [v[:, order]] and [v[:, :m]]. *)
Definition reordered (order : list nat) (v : list (list Qc)) : list (list Qc) :=
  map (firstn (length order)) (map (Np.take 0%Qc order) v).

(** ** The discretizer of the specification *)

(** The verdict of the discretizer as the specification words it:
    [InvalidDomain] if [a >= b], [InvalidMesh] if [N < 1], [InvalidMass] if
    [mass <= 0], [PotentialEvaluationError] if the potential misbehaves on
    the interior mesh, success otherwise. *)
Module Spec.

Inductive error : Set :=
| InvalidDomain
| InvalidMesh
| InvalidMass
| PotentialEvaluationError.

Definition discretizer_verdict (a b : Qc) (N : Z) (mass : Qc)
    (interior_fine : bool) : option error :=
  if Qclt_le_dec a b then
    if N <? 1 then Some InvalidMesh
    else if Qclt_le_dec 0%Qc mass then
      if interior_fine then None else Some PotentialEvaluationError
    else Some InvalidMass
  else Some InvalidDomain.

End Spec.

(** ** Potentials and kernels of the examples *)

(** The fraction behind an array element, for reading results. *)
Definition readback (x : npfloat) : option Q :=
  match x with
  | Fin q => Some (this q)
  | NonFinite => None
  end.

Definition readback_diagonals (r : result (list npfloat * list npfloat))
  : result (list (option Q) * list (option Q)) :=
  ' (main, off) <- r ;; Ok (map readback main, map readback off).

(** A potential that raises at the origin and vanishes elsewhere. *)
Definition singular_potential_fn : Qc -> result npfloat :=
  fun x => if Qc_eq_bool x 0 then Raise (UserError 0) else Ok (Fin 0%Qc).

Definition zero_potential : Qc -> npfloat := fun _ => Fin 0%Qc.

Definition zero_potential_fn : Qc -> result npfloat := fun _ => Ok (Fin 0%Qc).

Definition unit_potential : Qc -> Qc := fun _ => 1%Qc.

(** A potential that vanishes inside the domain [[0, 3]] and is infinite at
    its two end points. *)
Definition walled_potential : Qc -> npfloat :=
  fun x =>
    if Qc_eq_bool x 0 || Qc_eq_bool x (Z2Qc 3) then NonFinite else Fin 0%Qc.

(** A kernel for the examples: the two eigenpairs of the 2x2 matrix with
    diagonal [1, 1] and off-diagonal [-1/2], listed in descending order of
    the eigenvalues [3/2] (vector [(1, -1)]) and [1/2] (vector [(1, 1)]). *)
Definition kernel_2x2 : lapack_kernel :=
  fun _ _ _ _ =>
    Ok ([Q2Qc (3 # 2); Q2Qc (1 # 2)],
        [[1%Qc; 1%Qc]; [(- (1))%Qc; 1%Qc]]).

(** An exact eigensolver for 1x1 matrices: the eigenvalue is the diagonal
    entry, the eigenvector is [(1)]. *)
Definition kernel_1x1 : lapack_kernel := fun d _ _ _ => Ok (d, [[1%Qc]]).

(** A potential that ignores the shape of the mesh and returns five
    samples. *)
Definition oversized_potential : potential :=
  fun _ => Ok (repeat (Fin 0%Qc) 5).

Definition example_result : result (list Qc * list (list Qc)) :=
  Eval vm_compute in
    discretized_schrodinger kernel_2x2 (pointwise zero_potential)
      0%Qc (Z2Qc 3) 2 2 1%Qc 1%Qc.

Definition example_energies : list Qc :=
  match example_result with Ok (en, _) => en | Raise _ => [] end.

Definition example_states : list (list Qc) :=
  match example_result with Ok (_, st) => st | Raise _ => [] end.

(* ================================================================== *)
(** * The function over binary64 numbers *)

(** The second model of [discretized_schrodinger]: the same statements,
    computed with IEEE 754 binary64 numbers ([PrimFloat]), so that rounding,
    overflow, [inf] and [nan] are those of the program.  The three library
    routines whose numerical results are not determined by IEEE 754 stay
    abstract, as the fields of [libs]; everything else is written out. *)

Module B64.

Local Open Scope float_scope.

(** A Python [int] as a [float64]: the nearest binary64 number, exact for
    [|z| <= 2^53] (the conversion is modelled for [|z| < 2^63]). *)
Definition of_Z (z : Z) : float :=
  if (z <? 0)%Z then - of_uint63 (Uint63.of_Z (- z))
  else of_uint63 (Uint63.of_Z z).

Definition of_nat (n : nat) : float := of_Z (Z.of_nat n).

(** The library routines behind the function:
    - [power_m2 x] is [np.power(x, -2.0)], the C library's [pow];
    - [argsort w] is [np.argsort(w)], whose order on equal keys is not
      specified;
    - [lapack d e il iu] is the LAPACK pair [stebz]/[stein] as
      [eigh_tridiagonal] calls it for the index range [il..iu]. *)
Record libs : Type := Libs {
  power_m2 : float -> float;
  argsort : list float -> list nat;
  lapack : list float -> list float -> Z -> Z ->
           result (list float * list (list float))
}.

(** [np.arange(0, n)] as floats *)
Definition arange (n : nat) : list float := map of_nat (seq 0 n).

(** [y[-1] = v] on a non-empty array. *)
Definition set_last (y : list float) (v : float) : list float :=
  match y with
  | [] => []
  | _ => removelast y ++ [v]
  end.

(** [np.linspace(start, stop, num)] with [endpoint=True], as numpy computes
    it: [div = num - 1], [delta = stop - start], [y = arange(0, num)];
    when [div > 0], [step = delta / div] and [y = y * step], or
    [y = (y / div) * delta] if [step == 0]; when [div <= 0],
    [y = y * delta]; then [y += start], and [y[-1] = stop] if [num > 1].
    A negative [num] raises [ValueError]. *)
Definition linspace (start stop : float) (num : Z) : result (list float) :=
  if (num <? 0)%Z then Raise ValueError
  else
    let div := (num - 1)%Z in
    let delta := stop - start in
    let y := arange (Z.to_nat num) in
    let y :=
      if (0 <? div)%Z then
        let step := delta / of_Z div in
        if step =? 0 then map (fun i => i / of_Z div * delta) y
        else map (fun i => i * step) y
      else map (fun i => i * delta) y in
    let y := map (fun v => v + start) y in
    Ok (if (1 <? num)%Z then set_last y stop else y).

(** [np.diff(xs)] *)
Definition diff (xs : list float) : list float :=
  map (fun p => snd p - fst p) (combine xs (tl xs)).

(** [arr[0]] *)
Definition getitem0 (l : list float) : result float :=
  match l with
  | [] => Raise IndexError
  | x :: _ => Ok x
  end.

(** [np.ones(n)] *)
Definition ones (n : Z) : result (list float) :=
  if (n <? 0)%Z then Raise ValueError else Ok (repeat 1 (Z.to_nat n)).

(** [arr.T] of a 2D array. *)
Definition transpose (m : list (list float)) : list (list float) :=
  map (fun j => map (fun row => nth j row 0) m) (seq 0 (Np.ncols m)).

(** The potential, called once on the whole mesh array. *)
Definition potential := list float -> result (list float).

(** A potential that maps a total function over the mesh. *)
Definition pointwise (V : float -> float) : potential :=
  fun xs => Ok (map V xs).

(** The discretization step (notebook lines 38-47). *)
Definition discretize (L : libs) (potentialFunction : potential)
    (initialBoundaryPoint finalBoundaryPoint : float) (numPosSteps : Z)
    (mass : float) : result (list float * list float) :=
  xs <- linspace initialBoundaryPoint finalBoundaryPoint (numPosSteps + 2) ;;
  dx <- getitem0 (diff xs) ;;
  Vx <- potentialFunction xs ;;
  let main_diag :=
    Np.slice_inner (map (fun v => power_m2 L dx + mass * v) Vx) in
  one <- ones (Np.len main_diag - 1) ;;
  let off_diag := map (fun o => power_m2 L dx * (-0.5) * o) one in
  Ok (main_diag, off_diag).

(** [_asarray_validated] with [check_finite=True]. *)
Definition asarray_validated (a : list float) : result (list float) :=
  if forallb is_finite a then Ok a else Raise ValueError.

(** [scipy.linalg.eigh_tridiagonal(d, e, eigvals_only=False, select='i',
    select_range=...)]: the finiteness checks, the size check, the check of
    the index range, the quick exit for a 1x1 matrix (the eigenvalue [d[0]]
    and the eigenvector array [[1.]], without a call to LAPACK), and
    otherwise the call to LAPACK followed by [order = argsort(w)],
    [w, v = w[order], v[:, order]] and [v = v[:, :m]]. *)
Definition eigh_tridiagonal (L : libs) (d e : list float)
    (select_range : Z * Z) : result (list float * list (list float)) :=
  d <- asarray_validated d ;;
  e <- asarray_validated e ;;
  if negb (Np.len d =? Np.len e + 1)%Z then Raise ValueError
  else
    ' (il, iu) <- Scipy.check_select select_range (Np.len d) ;;
    match d with
    | [d0] => Ok ([d0], [[1]])
    | _ =>
        ' (w, v) <- lapack L d e il iu ;;
        let order := argsort L w in
        let w := Np.take 0 order w in
        let v := map (Np.take 0 order) v in
        Ok (w, map (firstn (length w)) v)
    end.

(** Python's [x / y] on floats. *)
Definition py_div (x y : float) : result float :=
  if y =? 0 then Raise ZeroDivisionError else Ok (x / y).

(** [discretized_schrodinger] (notebook lines 36-61). *)
Definition discretized_schrodinger (L : libs) (potentialFunction : potential)
    (initialBoundaryPoint finalBoundaryPoint : float)
    (numPosSteps numEigVals : Z) (mass hbar : float)
  : result (list float * list (list float)) :=
  ' (main_diag, off_diag) <-
      discretize L potentialFunction initialBoundaryPoint finalBoundaryPoint
        numPosSteps mass ;;
  ' (eigvals, eigstates) <-
      eigh_tridiagonal L main_diag off_diag (0, numEigVals - 1)%Z ;;
  scale <- py_div hbar mass ;;
  Ok (map (fun w => scale * w) eigvals, transpose eigstates).

(** *** Auxiliary definitions used by the statements *)

(** Sample [i] of the mesh of [N + 2] points from [a] to [b]: the last
    sample is [b] itself, the others are [i * step + a] with the rounded
    [step = (b - a) / (N + 1)] (or [(i / (N + 1)) * (b - a) + a] when the
    step underflows to zero). *)
Definition mesh_point (a b : float) (N : Z) (i : nat) : float :=
  if (i =? Z.to_nat N + 1)%nat then b
  else
    let div := of_Z (N + 1) in
    let delta := b - a in
    let step := delta / div in
    (if step =? 0 then of_nat i / div * delta else of_nat i * step) + a.

(** The value bound to [dx]: the difference of the first two samples. *)
Definition spacing (a b : float) (N : Z) : float :=
  mesh_point a b N 1 - mesh_point a b N 0.

(** The diagonals built from [dx] and the potential samples [Vx], as the
    body of [discretize] writes them. *)
Definition main_of (L : libs) (dx mass : float) (Vx : list float)
  : list float :=
  Np.slice_inner (map (fun v => power_m2 L dx + mass * v) Vx).

Definition off_of (L : libs) (dx : float) (n : nat) : list float :=
  map (fun o => power_m2 L dx * (-0.5) * o) (repeat 1 n).




(** *** Library routines of the examples *)

(** [np.power(x, -2.0)] as the reciprocal of the square.  The examples use
    it at [0] and at [1] only, where [pow] is exact by the C standard
    ([inf] and [1]). *)
Definition power_m2_by_division (x : float) : float := 1 / (x * x).

(** An [argsort] by insertion. *)
Fixpoint insert_index (w : list float) (i : nat) (order : list nat)
  : list nat :=
  match order with
  | [] => [i]
  | j :: t =>
      if nth j w 0 <? nth i w 0 then j :: insert_index w i t
      else i :: j :: t
  end.

Definition argsort_by_insertion (w : list float) : list nat :=
  fold_right (insert_index w) [] (seq 0 (length w)).

(** A stand-in for LAPACK on a 3x3 matrix and the index range [1..2]: two
    values in descending order and a 3x2 array with six different
    entries, so that the reordering and the transposition are visible. *)
Definition lapack_3x2
  : list float -> list float -> Z -> Z ->
    result (list float * list (list float)) :=
  fun _ _ _ _ => Ok ([2; 1], [[1; 2]; [3; 4]; [5; 6]]).

Definition example_libs : libs :=
  Libs power_m2_by_division argsort_by_insertion lapack_3x2.

(** The potential [V = 0]. *)
Definition free_particle : float -> float := fun _ => 0.

End B64.

(* ================================================================== *)
(** * Properties *)

(** ** Arithmetic helpers *)

Lemma Z2Qc_0 : Z2Qc 0 = 0%Qc.
Proof. apply Qc_is_canon; reflexivity. Qed.

Lemma Z2Qc_1 : Z2Qc 1 = 1%Qc.
Proof. apply Qc_is_canon; reflexivity. Qed.

Lemma Z2Qc_nonzero (z : Z) : z <> 0 -> Z2Qc z <> 0%Qc.
Proof.
  intros Hz H. unfold Z2Qc in H.
  apply Q2Qc_eq_iff in H.
  unfold Qeq in H; simpl in H. lia.
Qed.

Lemma Qc_eq_bool_refl (x : Qc) : Qc_eq_bool x x = true.
Proof.
  unfold Qc_eq_bool. destruct (Qc_eq_dec x x); congruence.
Qed.

Lemma Qc_eq_bool_neq (x y : Qc) : x <> y -> Qc_eq_bool x y = false.
Proof.
  intros H. unfold Qc_eq_bool. destruct (Qc_eq_dec x y); congruence.
Qed.

Lemma Qclt_neq (x y : Qc) : (x < y)%Qc -> (y - x)%Qc <> 0%Qc.
Proof.
  intros Hlt H.
  assert (E : y = x) by (transitivity ((y - x) + x)%Qc; [ring | rewrite H; ring]).
  subst y. exact (Qclt_not_eq _ _ Hlt eq_refl).
Qed.

(** Lists of canonical fractions are equal when their fractions are. *)
Lemma Qc_list_decomp (l1 l2 : list Qc) : map this l1 = map this l2 -> l1 = l2.
Proof.
  revert l2. induction l1 as [|x t IH]; intros [|y u] H; simpl in H;
    try discriminate; [reflexivity|].
  injection H as Hxy Htu. f_equal; [now apply Qc_decomp | now apply IH].
Qed.

(** ** Lists *)

Lemma length_removelast {A : Type} (l : list A) :
  length (removelast l) = (length l - 1)%nat.
Proof.
  induction l as [|x [|y t] IH]; simpl in *; try reflexivity.
  rewrite IH. lia.
Qed.

Lemma nth_removelast {A : Type} (d : A) (l : list A) (i : nat) :
  (i < length l - 1)%nat -> nth i (removelast l) d = nth i l d.
Proof.
  revert i. induction l as [|x l IH]; intros i Hi; [simpl in Hi; lia|].
  destruct l as [|y t]; [simpl in Hi; lia|].
  change (removelast (x :: y :: t)) with (x :: removelast (y :: t)).
  destruct i as [|i]; [reflexivity|].
  cbn [nth]. apply IH. cbn [length] in *. lia.
Qed.

Lemma map_nth_seq {A : Type} (d : A) (l : list A) :
  map (fun i => nth i l d) (seq 0 (length l)) = l.
Proof.
  apply (nth_ext _ _ d d).
  - now rewrite length_map, length_seq.
  - intros i Hi. rewrite length_map, length_seq in Hi.
    set (f := fun i => nth i l d).
    rewrite nth_indep with (d' := f 0%nat) by (rewrite length_map, length_seq; lia).
    now rewrite (map_nth f), seq_nth.
Qed.

Lemma length_slice_inner {A : Type} (l : list A) :
  length (Np.slice_inner l) = (length l - 2)%nat.
Proof.
  unfold Np.slice_inner. rewrite length_removelast.
  destruct l; simpl; lia.
Qed.

Lemma nth_slice_inner {A : Type} (d : A) (l : list A) (i : nat) :
  (i + 2 < length l)%nat -> nth i (Np.slice_inner l) d = nth (S i) l d.
Proof.
  intros Hi. unfold Np.slice_inner.
  rewrite nth_removelast by (destruct l; simpl in *; lia).
  destruct l; simpl in *; [lia | reflexivity].
Qed.

(** ** The mesh *)

Lemma length_arange (n : nat) : length (Np.arange n) = n.
Proof. unfold Np.arange. now rewrite length_map, length_seq. Qed.

Lemma nth_arange (n i : nat) :
  (i < n)%nat -> nth i (Np.arange n) 0%Qc = Z2Qc (Z.of_nat i).
Proof.
  intros Hi. unfold Np.arange.
  rewrite nth_indep with (d' := Z2Qc (Z.of_nat 0)) by now rewrite length_map, length_seq.
  rewrite (map_nth (fun i => Z2Qc (Z.of_nat i))), seq_nth by assumption.
  reflexivity.
Qed.

Lemma length_set_last (y : list Qc) (v : Qc) :
  length (Np.set_last y v) = length y.
Proof.
  destruct y as [|x t]; [reflexivity|].
  unfold Np.set_last. rewrite length_app, length_removelast. simpl. lia.
Qed.

Lemma nth_set_last_before (y : list Qc) (v : Qc) (i : nat) :
  (i + 1 < length y)%nat -> nth i (Np.set_last y v) 0%Qc = nth i y 0%Qc.
Proof.
  intros Hi. destruct y as [|x t]; [simpl in Hi; lia|].
  unfold Np.set_last.
  rewrite app_nth1 by (rewrite length_removelast; lia).
  apply nth_removelast. lia.
Qed.

Lemma nth_set_last_last (y : list Qc) (v : Qc) :
  y <> [] -> nth (length y - 1) (Np.set_last y v) 0%Qc = v.
Proof.
  intros Hy. destruct y as [|x t]; [congruence|].
  unfold Np.set_last.
  rewrite app_nth2 by (rewrite length_removelast; lia).
  rewrite length_removelast, Nat.sub_diag. reflexivity.
Qed.

(** The mesh of [numPosSteps + 2] points, for [numPosSteps >= 0]. *)
Lemma linspace_mesh (a b : Qc) (N : Z) :
  0 <= N ->
  exists xs,
    Np.linspace a b (N + 2) = Ok xs /\
    length xs = (Z.to_nat N + 2)%nat /\
    (forall i, (i <= Z.to_nat N)%nat ->
       nth i xs 0%Qc = (Z2Qc (Z.of_nat i) * ((b - a) / Z2Qc (N + 1)) + a)%Qc) /\
    nth (Z.to_nat N + 1) xs 0%Qc = b.
Proof.
  intros HN. unfold Np.linspace.
  replace (N + 2 <? 0) with false by (symmetry; apply Z.ltb_ge; lia).
  replace (0 <? N + 2 - 1) with true by (symmetry; apply Z.ltb_lt; lia).
  replace (1 <? N + 2) with true by (symmetry; apply Z.ltb_lt; lia).
  replace (N + 2 - 1) with (N + 1) by lia.
  replace (Z.to_nat (N + 2)) with (Z.to_nat N + 2)%nat by lia.
  eexists; split; [reflexivity|].
  set (f := fun i : Qc => (i * ((b - a) / Z2Qc (N + 1)) + a)%Qc).
  assert (Hlen : length (map f (Np.arange (Z.to_nat N + 2))) = (Z.to_nat N + 2)%nat)
    by now rewrite length_map, length_arange.
  split; [now rewrite length_set_last|]. split.
  - intros i Hi.
    rewrite nth_set_last_before by lia.
    rewrite nth_indep with (d' := f 0%Qc) by lia.
    rewrite (map_nth f), nth_arange by lia. reflexivity.
  - replace (Z.to_nat N + 1)%nat
      with (length (map f (Np.arange (Z.to_nat N + 2))) - 1)%nat by lia.
    apply nth_set_last_last.
    intros E. rewrite E in Hlen. simpl in Hlen. lia.
Qed.

Lemma getitem0_diff (xs : list Qc) :
  (2 <= length xs)%nat ->
  Np.getitem0 (Np.diff xs) = Ok (nth 1 xs 0 - nth 0 xs 0)%Qc.
Proof.
  destruct xs as [|x0 [|x1 t]]; simpl; intros H; try lia. reflexivity.
Qed.

(** [np.diff(xs)[0]] is the uniform spacing [(b - a) / (N + 1)]. *)
Lemma mesh_spacing (a b : Qc) (N : Z) (xs : list Qc) :
  0 <= N ->
  Np.linspace a b (N + 2) = Ok xs ->
  Np.getitem0 (Np.diff xs) = Ok ((b - a) / Z2Qc (N + 1))%Qc.
Proof.
  intros HN Hxs.
  destruct (linspace_mesh a b N HN) as (xs' & E & Hlen & Hnth & Hlast).
  rewrite E in Hxs; injection Hxs as ->.
  rewrite getitem0_diff by lia. f_equal.
  rewrite (Hnth 0%nat) by lia. change (Z.of_nat 0) with 0. rewrite Z2Qc_0.
  destruct (Z.eq_dec N 0) as [->|HN0].
  - change (Z.to_nat 0 + 1)%nat with 1%nat in Hlast. rewrite Hlast.
    change (0 + 1) with 1. rewrite Z2Qc_1. field. exact Q_apart_0_1.
  - rewrite (Hnth 1%nat) by lia. change (Z.of_nat 1) with 1. rewrite Z2Qc_1.
    ring.
Qed.

(** The samples of [linspace] are the mesh points. *)
Lemma linspace_mesh_point (a b : Qc) (N : Z) (xs : list Qc) (i : nat) :
  0 <= N -> Np.linspace a b (N + 2) = Ok xs -> (i <= Z.to_nat N + 1)%nat ->
  nth i xs 0%Qc = mesh_point a b N i.
Proof.
  intros HN Hxs Hi.
  destruct (linspace_mesh a b N HN) as (xs' & E & Hlen & Hnth & Hlast).
  rewrite E in Hxs; injection Hxs as ->. unfold mesh_point.
  destruct (Nat.eq_dec i (Z.to_nat N + 1)) as [->|Hne].
  - rewrite Hlast. replace (Z.of_nat (Z.to_nat N + 1)) with (N + 1) by lia.
    field. apply Z2Qc_nonzero. lia.
  - rewrite Hnth by lia. ring.
Qed.

Lemma Qcdiv_nonzero (x y : Qc) : x <> 0%Qc -> y <> 0%Qc -> (x / y)%Qc <> 0%Qc.
Proof.
  intros Hx Hy H. apply Hx.
  rewrite <- (Qcmult_div_r x y Hy), H. ring.
Qed.

Lemma power_m2_nonzero (x : Qc) : x <> 0%Qc -> Np.power_m2 x = Fin (/ (x ^ 2))%Qc.
Proof.
  intros H. unfold Np.power_m2. now rewrite Qc_eq_bool_neq.
Qed.

(** ** The discretization step *)

Lemma length_main_of dx mass Vx : length (main_of dx mass Vx) = (length Vx - 2)%nat.
Proof. unfold main_of. now rewrite length_slice_inner, length_map. Qed.

Lemma length_off_of dx n : length (off_of dx n) = n.
Proof. unfold off_of. now rewrite length_map, repeat_length. Qed.

Lemma nth_main_of dx mass Vx i :
  (i + 2 < length Vx)%nat ->
  nth i (main_of dx mass Vx) NonFinite =
  fadd (Np.power_m2 dx) (fmul (Fin mass) (nth (S i) Vx NonFinite)).
Proof.
  intros Hi. unfold main_of.
  rewrite nth_slice_inner by now rewrite length_map.
  set (g := fun v => fadd (Np.power_m2 dx) (fmul (Fin mass) v)).
  rewrite nth_indep with (d' := g NonFinite) by (rewrite length_map; lia).
  apply (map_nth g).
Qed.

Lemma nth_off_of dx n i :
  (i < n)%nat ->
  nth i (off_of dx n) NonFinite = fmul (fmul (Np.power_m2 dx) (Fin (- half)%Qc)) (Fin 1%Qc).
Proof.
  intros Hi. unfold off_of.
  set (h := fun o => fmul (fmul (Np.power_m2 dx) (Fin (- half)%Qc)) o).
  rewrite nth_indep with (d' := h (Fin 1%Qc)) by (rewrite length_map, repeat_length; lia).
  rewrite (map_nth h). f_equal.
  apply nth_repeat_lt. exact Hi.
Qed.

(** What the discretization step returns once the mesh exists and the
    potential has returned its samples. *)
Lemma discretize_eq (pot : potential) (a b : Qc) (N : Z) (mass : Qc)
    (xs : list Qc) (Vx : list npfloat) :
  0 <= N ->
  Np.linspace a b (N + 2) = Ok xs ->
  pot xs = Ok Vx ->
  discretize pot a b N mass =
  if (length Vx <=? 2)%nat then Raise ValueError
  else
    let dx := ((b - a) / Z2Qc (N + 1))%Qc in
    Ok (main_of dx mass Vx, off_of dx (length Vx - 3)).
Proof.
  intros HN Hxs HV. unfold discretize.
  rewrite Hxs. cbn [bind].
  rewrite (mesh_spacing a b N xs HN Hxs). cbn [bind].
  rewrite HV. cbn [bind].
  fold (main_of ((b - a) / Z2Qc (N + 1)) mass Vx).
  unfold Np.ones, Np.len. rewrite length_main_of.
  destruct (Nat.leb_spec (length Vx) 2) as [Hle|Hgt].
  - replace (Z.of_nat (length Vx - 2) - 1 <? 0) with true
      by (symmetry; apply Z.ltb_lt; lia).
    reflexivity.
  - replace (Z.of_nat (length Vx - 2) - 1 <? 0) with false
      by (symmetry; apply Z.ltb_ge; lia).
    cbn [bind]. unfold off_of.
    replace (Z.to_nat (Z.of_nat (length Vx - 2) - 1)) with (length Vx - 3)%nat by lia.
    reflexivity.
Qed.

(** On a non-degenerate domain with at least one interior point the
    discretization step returns the tridiagonal Hamiltonian. *)
Lemma discretize_hamiltonian (V : Qc -> Qc) (a b : Qc) (N : Z) (mass : Qc) :
  a <> b -> 1 <= N ->
  discretize (finite_potential V) a b N mass =
  Ok (map Fin (fst (hamiltonian V a b N mass)),
      map Fin (snd (hamiltonian V a b N mass))).
Proof.
  intros Hab HN.
  destruct (linspace_mesh a b N ltac:(lia)) as (xs & Hxs & Hlen & _).
  set (dx := ((b - a) / Z2Qc (N + 1))%Qc).
  assert (Hdx : dx <> 0%Qc).
  { apply Qcdiv_nonzero; [|apply Z2Qc_nonzero; lia].
    intros E. apply Hab. symmetry.
    transitivity ((b - a) + a)%Qc; [ring | rewrite E; ring]. }
  unfold finite_potential.
  rewrite (discretize_eq _ a b N mass xs (map (fun x => Fin (V x)) xs))
    by (auto; lia).
  rewrite length_map, Hlen.
  replace (Z.to_nat N + 2 <=? 2)%nat with false by (symmetry; apply Nat.leb_gt; lia).
  cbv zeta. fold dx. unfold hamiltonian. cbv zeta. fold dx. cbn [fst snd].
  f_equal. f_equal.
  - apply (nth_ext _ _ NonFinite NonFinite).
    + rewrite length_main_of, !length_map, length_seq. lia.
    + intros i Hi. rewrite length_main_of, length_map in Hi.
      rewrite nth_main_of by (rewrite length_map; lia).
      rewrite power_m2_nonzero by exact Hdx.
      set (g := fun x => Fin (V x)).
      rewrite nth_indep with (d' := g 0%Qc) by (rewrite length_map; lia).
      rewrite (map_nth g). unfold g.
      rewrite (linspace_mesh_point a b N xs (S i)) by (auto; lia).
      rewrite map_map.
      set (f := fun j => Fin (/ dx ^ 2 + mass * V (mesh_point a b N j))%Qc).
      rewrite nth_indep with (d' := f 0%nat) by (rewrite length_map, length_seq; lia).
      rewrite (map_nth f), seq_nth by lia. reflexivity.
  - unfold off_of. rewrite !map_repeat.
    rewrite power_m2_nonzero by exact Hdx. cbn [fmul].
    f_equal. lia.
Qed.

Lemma length_hamiltonian (V : Qc -> Qc) (a b : Qc) (N : Z) (mass : Qc) :
  length (fst (hamiltonian V a b N mass)) = Z.to_nat N /\
  length (snd (hamiltonian V a b N mass)) = (Z.to_nat N - 1)%nat.
Proof.
  unfold hamiltonian. cbn [fst snd].
  now rewrite length_map, length_seq, repeat_length.
Qed.

(** ** Failure modes of the discretization step *)

Lemma mapM_length {A B : Type} (f : A -> result B) (l : list A) (ys : list B) :
  mapM f l = Ok ys -> length ys = length l.
Proof.
  revert ys. induction l as [|x t IH]; intros ys H; simpl in H.
  - injection H as <-. reflexivity.
  - destruct (f x) as [y|e]; [|discriminate]. cbn [bind] in H.
    destruct (mapM f t) as [ys'|e]; [|discriminate]. cbn [bind] in H.
    injection H as <-. simpl. f_equal. now apply IH.
Qed.

(** Below [numPosSteps = 0] the mesh has fewer than two points and numpy
    fails before the potential is evaluated. *)
Lemma discretize_negative_mesh (pot : potential) (a b : Qc) (N : Z) (mass : Qc) :
  N < 0 ->
  discretize pot a b N mass = Raise (if N <? -2 then ValueError else IndexError).
Proof.
  intros HN. unfold discretize, Np.linspace.
  destruct (Z.ltb_spec N (-2)) as [Hlt|Hge].
  - replace (N + 2 <? 0) with true by (symmetry; apply Z.ltb_lt; lia).
    reflexivity.
  - assert (HN' : N = -2 \/ N = -1) by lia.
    destruct HN' as [-> | ->]; reflexivity.
Qed.

(** ** The finiteness check of the eigensolver call *)

Lemma asarray_validated_fin (q : list Qc) :
  Scipy.asarray_validated (map Fin q) = Ok q.
Proof.
  unfold Scipy.asarray_validated.
  induction q as [|x t IH]; simpl; [reflexivity|].
  now rewrite IH.
Qed.

Lemma asarray_validated_cases (d : list npfloat) :
  (In NonFinite d /\ Scipy.asarray_validated d = Raise ValueError) \/
  (exists q, d = map Fin q /\ Scipy.asarray_validated d = Ok q).
Proof.
  unfold Scipy.asarray_validated.
  induction d as [|[x|] t IH].
  - right. now exists [].
  - destruct IH as [[Hin E] | (q & -> & E)].
    + left. split; [now right|]. simpl. now rewrite E.
    + right. exists (x :: q). split; [reflexivity|]. simpl. now rewrite E.
  - left. split; [now left | reflexivity].
Qed.

Lemma eigh_tridiagonal_nonfinite (kernel : lapack_kernel) d e range :
  In NonFinite d -> Scipy.eigh_tridiagonal kernel d e range = Raise ValueError.
Proof.
  intros Hin. unfold Scipy.eigh_tridiagonal.
  destruct (asarray_validated_cases d) as [[_ E] | (q & -> & _)].
  - now rewrite E.
  - apply in_map_iff in Hin. destruct Hin as (x & Hx & _). discriminate.
Qed.

Lemma main_of_nonfinite_spacing mass Vx :
  (3 <= length Vx)%nat -> In NonFinite (main_of 0%Qc mass Vx).
Proof.
  intros Hlen.
  assert (E : nth 0 (main_of 0%Qc mass Vx) NonFinite = NonFinite)
    by (rewrite nth_main_of by lia; reflexivity).
  rewrite <- E. apply nth_In. rewrite length_main_of. lia.
Qed.

Lemma main_of_nonfinite_sample dx mass Vx i :
  (1 <= i)%nat -> (i + 1 < length Vx)%nat -> nth i Vx NonFinite = NonFinite ->
  In NonFinite (main_of dx mass Vx).
Proof.
  intros Hi1 Hi2 Hnf.
  destruct i as [|i]; [lia|].
  assert (E : nth i (main_of dx mass Vx) NonFinite = NonFinite).
  { rewrite nth_main_of by lia. rewrite Hnf.
    destruct (Np.power_m2 dx); reflexivity. }
  rewrite <- E. apply nth_In. rewrite length_main_of. lia.
Qed.

(** C2, counterexample.  With [a = 1 > b = 0] the specification's
    discretizer answers [InvalidDomain], and with [mass = -1] it answers
    [InvalidMass]; the discretization step of the code succeeds on both, and
    so does the whole call. *)
Lemma discretize_accepts_bad_domain_and_mass :
  (Spec.discretizer_verdict 1%Qc 0%Qc 1 1%Qc true = Some Spec.InvalidDomain /\
   readback_diagonals (discretize (vectorized zero_potential_fn) 1%Qc 0%Qc 1 1%Qc) =
     Ok ([Some 4%Q], []) /\
   succeeds (discretized_schrodinger kernel_1x1 (vectorized zero_potential_fn)
               1%Qc 0%Qc 1 1 1%Qc 1%Qc)) /\
  (Spec.discretizer_verdict 0%Qc 1%Qc 1 (- (1))%Qc true = Some Spec.InvalidMass /\
   readback_diagonals
     (discretize (vectorized zero_potential_fn) 0%Qc 1%Qc 1 (- (1))%Qc) =
     Ok ([Some 4%Q], []) /\
   succeeds (discretized_schrodinger kernel_1x1 (vectorized zero_potential_fn)
               0%Qc 1%Qc 1 1 (- (1))%Qc 1%Qc)).
Proof.
  repeat split; try (vm_compute; reflexivity);
    unfold succeeds; eexists; vm_compute; reflexivity.
Qed.

(** C2, as the code has it.  The discretization step checks neither the
    domain nor the mass.  It fails when [N < 1] (numpy raises) and when the
    potential raises on one of the [N + 2] mesh points (the exception
    propagates); in every other case it succeeds, whatever the order of [a]
    and [b] and the sign of [mass].  When [a = b], or when the potential
    returns a non-finite value at an interior point, the diagonals it
    returns hold a non-finite entry and the eigensolver call that follows
    raises [ValueError]. *)
Theorem discretize_failure_modes (V : Qc -> result npfloat) (a b : Qc) (N : Z)
    (mass : Qc) :
  (N < 1 -> fails (discretize (vectorized V) a b N mass)) /\
  (1 <= N ->
   exists xs,
     Np.linspace a b (N + 2) = Ok xs /\
     length xs = (Z.to_nat N + 2)%nat /\
     match mapM V xs with
     | Raise e => discretize (vectorized V) a b N mass = Raise e
     | Ok Vx =>
         let dx := ((b - a) / Z2Qc (N + 1))%Qc in
         discretize (vectorized V) a b N mass =
           Ok (main_of dx mass Vx, off_of dx (Z.to_nat N - 1)) /\
         forall (kernel : lapack_kernel) (k : Z) (hbar : Qc),
           a = b \/
           (exists i, (1 <= i <= Z.to_nat N)%nat /\ nth i Vx NonFinite = NonFinite) ->
           discretized_schrodinger kernel (vectorized V) a b N k mass hbar =
             Raise ValueError
     end).
Proof.
  split.
  - intros HN. destruct (Z.ltb_spec N 0) as [Hneg|Hnn].
    + eexists. now apply discretize_negative_mesh.
    + assert (N = 0) by lia; subst N.
      destruct (linspace_mesh a b 0 ltac:(lia)) as (xs & Hxs & Hlen & _).
      unfold vectorized.
      destruct (mapM V xs) as [Vx|e] eqn:EV.
      * rewrite (discretize_eq (mapM V) a b 0 mass xs Vx) by (auto; lia).
        rewrite (mapM_length _ _ _ EV), Hlen. eexists; reflexivity.
      * unfold discretize. rewrite Hxs. cbn [bind].
        rewrite (mesh_spacing a b 0 xs) by (auto; lia). cbn [bind].
        rewrite EV. eexists; reflexivity.
  - intros HN.
    destruct (linspace_mesh a b N ltac:(lia)) as (xs & Hxs & Hlen & _).
    exists xs. split; [exact Hxs|]. split; [exact Hlen|].
    destruct (mapM V xs) as [Vx|e] eqn:EV.
    + assert (HVx : length Vx = (Z.to_nat N + 2)%nat)
        by now rewrite (mapM_length _ _ _ EV).
      assert (Hd : discretize (vectorized V) a b N mass =
                   Ok (main_of ((b - a) / Z2Qc (N + 1)) mass Vx,
                       off_of ((b - a) / Z2Qc (N + 1)) (Z.to_nat N - 1))).
      { rewrite (discretize_eq (vectorized V) a b N mass xs Vx) by (auto; lia).
        rewrite HVx.
        replace (Z.to_nat N + 2 <=? 2)%nat with false
          by (symmetry; apply Nat.leb_gt; lia).
        cbv zeta. do 3 f_equal. lia. }
      cbv zeta. split; [exact Hd|].
      intros kernel k hbar Hbad.
      unfold discretized_schrodinger. rewrite Hd. cbn [bind].
      rewrite eigh_tridiagonal_nonfinite; [reflexivity|].
      destruct Hbad as [-> | (i & Hi & Hnf)].
      * replace (b - b)%Qc with 0%Qc by ring.
        replace (0 / Z2Qc (N + 1))%Qc with 0%Qc
          by (unfold Qcdiv; now rewrite Qcmult_0_l).
        apply main_of_nonfinite_spacing. lia.
      * apply (main_of_nonfinite_sample _ _ _ i); [lia | lia | exact Hnf].
    + unfold discretize. rewrite Hxs. cbn [bind].
      rewrite (mesh_spacing a b N xs) by (auto; lia). cbn [bind].
      unfold vectorized. rewrite EV. reflexivity.
Qed.

(** The failure modes on concrete calls: an empty interior, a mesh of one
    point, a negative number of samples, a potential that raises at the end
    point [a = 0], and a degenerate domain whose non-finite diagonals are
    refused by the eigensolver call. *)
Example discretize_failures :
  discretize (vectorized zero_potential_fn) 0%Qc 1%Qc 0 1%Qc = Raise ValueError /\
  discretize (vectorized zero_potential_fn) 0%Qc 1%Qc (-1) 1%Qc = Raise IndexError /\
  discretize (vectorized zero_potential_fn) 0%Qc 1%Qc (-3) 1%Qc = Raise ValueError /\
  discretize (vectorized singular_potential_fn) 0%Qc 1%Qc 2 1%Qc =
    Raise (UserError 0) /\
  readback_diagonals (discretize (vectorized zero_potential_fn) 1%Qc 1%Qc 2 1%Qc) =
    Ok ([None; None], [None]) /\
  discretized_schrodinger kernel_2x2 (vectorized zero_potential_fn)
    1%Qc 1%Qc 2 2 1%Qc 1%Qc = Raise ValueError /\
  discretized_schrodinger kernel_2x2 (vectorized zero_potential_fn)
    0%Qc (Z2Qc 3) 2 2 0%Qc 1%Qc = Raise ZeroDivisionError.
Proof. repeat split; vm_compute; reflexivity. Qed.

(** ** The eigensolver call *)

Lemma check_select_spec (k n : Z) :
  Scipy.check_select (0, k - 1) n =
  if (1 <=? k) && (k <=? n) then Ok (1, k) else Raise ValueError.
Proof.
  unfold Scipy.check_select.
  destruct (Z.ltb_spec (k - 1) 0) as [H1|H1].
  - replace (1 <=? k) with false by (symmetry; apply Z.leb_gt; lia). reflexivity.
  - replace (1 <=? k) with true by (symmetry; apply Z.leb_le; lia).
    replace (Z.min (0 + 1) (k - 1 + 1) <? 1) with false
      by (symmetry; apply Z.ltb_ge; lia).
    replace (Z.max (0 + 1) (k - 1 + 1)) with k by lia.
    cbn [orb andb].
    destruct (Z.ltb_spec n k) as [H2|H2].
    + replace (k <=? n) with false by (symmetry; apply Z.leb_gt; lia). reflexivity.
    + replace (k <=? n) with true by (symmetry; apply Z.leb_le; lia).
      do 2 f_equal. lia.
Qed.

(** An index range outside [1..len(d)] is refused before LAPACK is called. *)
Lemma eigh_tridiagonal_bad_range (kernel : lapack_kernel) d e (k : Z) :
  k < 1 \/ Np.len d < k ->
  fails (Scipy.eigh_tridiagonal kernel d e (0, k - 1)).
Proof.
  intros Hk. unfold Scipy.eigh_tridiagonal.
  destruct (Scipy.asarray_validated d) as [dq|x] eqn:Ed; [|now eexists].
  cbn [bind].
  destruct (Scipy.asarray_validated e) as [eq|x] eqn:Ee; [|now eexists].
  cbn [bind].
  destruct (negb (Np.len dq =? Np.len eq + 1)); [now eexists|].
  rewrite check_select_spec.
  assert (Hlen : Np.len dq = Np.len d).
  { unfold Np.len. f_equal. apply (mapM_length _ _ _ Ed). }
  replace ((1 <=? k) && (k <=? Np.len dq)) with false; [now eexists|].
  symmetry. apply andb_false_iff.
  destruct Hk; [left; apply Z.leb_gt | right; apply Z.leb_gt]; lia.
Qed.

(** What a successful eigensolver call went through. *)
Lemma eigh_tridiagonal_ok (kernel : lapack_kernel) d e (k : Z) eigvals eigstates :
  Scipy.eigh_tridiagonal kernel d e (0, k - 1) = Ok (eigvals, eigstates) ->
  exists dq eq w v,
    d = map Fin dq /\ e = map Fin eq /\
    length dq = S (length eq) /\
    1 <= k <= Np.len dq /\
    kernel dq eq 1 k = Ok (w, v) /\
    eigvals = Np.take 0%Qc (Np.argsort w) w /\
    eigstates =
      map (firstn (length eigvals)) (map (Np.take 0%Qc (Np.argsort w)) v).
Proof.
  unfold Scipy.eigh_tridiagonal. intros H.
  destruct (asarray_validated_cases d) as [[_ E] | (dq & -> & Ed)];
    [rewrite E in H; discriminate|].
  rewrite Ed in H. cbn [bind] in H.
  destruct (asarray_validated_cases e) as [[_ E] | (eq & -> & Ee)];
    [rewrite E in H; discriminate|].
  rewrite Ee in H. cbn [bind] in H.
  destruct (Z.eqb_spec (Np.len dq) (Np.len eq + 1)) as [Hlen|Hlen];
    cbn [negb] in H; [|discriminate].
  rewrite check_select_spec in H.
  destruct (Z.leb_spec 1 k) as [Hk1|Hk1]; cbn [andb] in H; [|discriminate].
  destruct (Z.leb_spec k (Np.len dq)) as [Hk2|Hk2]; [|discriminate].
  cbn [bind] in H.
  destruct (kernel dq eq 1 k) as [[w v]|x] eqn:Ek; [|discriminate].
  cbn [bind] in H. injection H as <- <-.
  exists dq, eq, w, v. unfold Np.len in *.
  repeat split; try reflexivity; try assumption; lia.
Qed.

(** ** [argsort] *)

Section Argsort.

Variable w : list Qc.

Lemma insert_by_HdRel (j i : nat) (order : list nat) :
  key_le w j i -> HdRel (key_le w) j order -> HdRel (key_le w) j (Np.insert_by w i order).
Proof.
  intros Hji Hhd. destruct order as [|h t]; simpl.
  - now constructor.
  - destruct (Qclt_le_dec (nth h w 0%Qc) (nth i w 0%Qc)).
    + constructor. now inversion Hhd.
    + now constructor.
Qed.

Lemma insert_by_sorted (i : nat) (order : list nat) :
  Sorted (key_le w) order -> Sorted (key_le w) (Np.insert_by w i order).
Proof.
  induction order as [|j t IH]; intros Hs; simpl.
  - repeat constructor.
  - inversion Hs as [|? ? Hst Hhd]; subst.
    destruct (Qclt_le_dec (nth j w 0%Qc) (nth i w 0%Qc)) as [Hlt|Hle].
    + constructor; [now apply IH|].
      apply insert_by_HdRel; [|exact Hhd].
      unfold key_le. now apply Qclt_le_weak.
    + constructor; [exact Hs|]. constructor. exact Hle.
Qed.

Lemma insert_by_perm (i : nat) (order : list nat) :
  Permutation (i :: order) (Np.insert_by w i order).
Proof.
  induction order as [|j t IH]; simpl; [reflexivity|].
  destruct (Qclt_le_dec (nth j w 0%Qc) (nth i w 0%Qc)); [|reflexivity].
  rewrite perm_swap. now constructor.
Qed.

Lemma argsort_perm : Permutation (seq 0 (length w)) (Np.argsort w).
Proof.
  unfold Np.argsort. induction (seq 0 (length w)) as [|i l IH]; simpl.
  - constructor.
  - rewrite <- insert_by_perm. now constructor.
Qed.

Lemma argsort_sorted_indices : Sorted (key_le w) (Np.argsort w).
Proof.
  unfold Np.argsort. induction (seq 0 (length w)) as [|i l IH]; simpl.
  - constructor.
  - now apply insert_by_sorted.
Qed.

Lemma length_argsort : length (Np.argsort w) = length w.
Proof.
  rewrite <- (Permutation_length argsort_perm). apply length_seq.
Qed.

Lemma argsort_in_range (i : nat) : In i (Np.argsort w) -> (i < length w)%nat.
Proof.
  intros Hi. apply (Permutation_in _ (Permutation_sym argsort_perm)) in Hi.
  apply in_seq in Hi. lia.
Qed.

(** [w[argsort(w)]] is ascending. *)
Lemma take_argsort_sorted : Sorted Qcle (Np.take 0%Qc (Np.argsort w) w).
Proof.
  unfold Np.take.
  induction argsort_sorted_indices as [|i l Hs IH Hhd]; simpl.
  - constructor.
  - constructor; [exact IH|].
    destruct Hhd; simpl; constructor. assumption.
Qed.

(** [w[argsort(w)]] holds the entries of [w], each once. *)
Lemma take_argsort_perm : Permutation w (Np.take 0%Qc (Np.argsort w) w).
Proof.
  unfold Np.take.
  rewrite <- (Permutation_map (fun i => nth i w 0%Qc) argsort_perm).
  now rewrite map_nth_seq.
Qed.

End Argsort.

Lemma Sorted_scale (c : Qc) (l : list Qc) :
  (0 <= c)%Qc -> Sorted Qcle l -> Sorted Qcle (map (fun x => (c * x)%Qc) l).
Proof.
  intros Hc Hs. induction Hs as [|x l Hs IH Hhd]; simpl.
  - constructor.
  - constructor; [exact IH|].
    destruct Hhd as [|y l Hxy]; simpl; constructor.
    rewrite (Qcmult_comm c x), (Qcmult_comm c y).
    now apply Qcmult_le_compat_r.
Qed.

(** ** The composition *)

Lemma py_div_ok (x y : Qc) : y <> 0%Qc -> py_div x y = Ok (x / y)%Qc.
Proof. intros H. unfold py_div. now rewrite Qc_eq_bool_neq. Qed.

Lemma py_div_inv (x y s : Qc) : py_div x y = Ok s -> y <> 0%Qc /\ s = (x / y)%Qc.
Proof.
  unfold py_div. intros H. destruct (Qc_eq_dec y 0) as [->|Hy].
  - rewrite Qc_eq_bool_refl in H. discriminate.
  - rewrite Qc_eq_bool_neq in H by exact Hy. injection H as <-. now split.
Qed.

Lemma discretized_schrodinger_compose (kernel : lapack_kernel) (pot : potential)
    a b N k mass hbar main off eigvals eigstates :
  discretize pot a b N mass = Ok (main, off) ->
  Scipy.eigh_tridiagonal kernel main off (0, k - 1) = Ok (eigvals, eigstates) ->
  discretized_schrodinger kernel pot a b N k mass hbar =
  (scale <- py_div hbar mass ;;
   Ok (map (fun w => (scale * w)%Qc) eigvals, Np.transpose eigstates)).
Proof.
  intros Hd He. unfold discretized_schrodinger.
  rewrite Hd. cbn [bind]. rewrite He. reflexivity.
Qed.

Lemma discretized_schrodinger_ok (kernel : lapack_kernel) (pot : potential)
    a b N k mass hbar energies states :
  discretized_schrodinger kernel pot a b N k mass hbar = Ok (energies, states) ->
  exists main off eigvals eigstates,
    discretize pot a b N mass = Ok (main, off) /\
    Scipy.eigh_tridiagonal kernel main off (0, k - 1) = Ok (eigvals, eigstates) /\
    mass <> 0%Qc /\
    energies = map (fun w => (hbar / mass * w)%Qc) eigvals /\
    states = Np.transpose eigstates.
Proof.
  unfold discretized_schrodinger. intros H.
  destruct (discretize pot a b N mass) as [[main off]|x] eqn:Hd; [|discriminate].
  cbn [bind] in H.
  destruct (Scipy.eigh_tridiagonal kernel main off (0, k - 1))
    as [[eigvals eigstates]|x] eqn:He; [|discriminate].
  cbn [bind] in H.
  destruct (py_div hbar mass) as [s|x] eqn:Es; [|discriminate].
  cbn [bind] in H. injection H as <- <-.
  apply py_div_inv in Es. destruct Es as [Hm ->].
  exists main, off, eigvals, eigstates.
  split; [reflexivity|]. split; [exact He|]. split; [exact Hm|].
  split; reflexivity.
Qed.

(** C4.  Whenever [discretized_schrodinger] returns, the eigenvalues that the
    eigensolver call returned are the ones LAPACK computed, in
    non-decreasing order; the returned energies are these eigenvalues
    scaled by [hbar / mass], and they are in non-decreasing order as well
    when [hbar / mass >= 0]. *)
Theorem eigenvalues_ascending (kernel : lapack_kernel) (pot : potential)
    (a b : Qc) (N k : Z) (mass hbar : Qc) (energies : list Qc)
    (states : list (list Qc)) :
  discretized_schrodinger kernel pot a b N k mass hbar = Ok (energies, states) ->
  exists main off eigvals eigstates,
    discretize pot a b N mass = Ok (main, off) /\
    Scipy.eigh_tridiagonal kernel main off (0, k - 1) = Ok (eigvals, eigstates) /\
    (exists dq eq w v,
       main = map Fin dq /\ off = map Fin eq /\
       kernel dq eq 1 k = Ok (w, v) /\ Permutation w eigvals) /\
    Sorted Qcle eigvals /\
    energies = map (fun w => (hbar / mass * w)%Qc) eigvals /\
    ((0 <= hbar / mass)%Qc -> Sorted Qcle energies).
Proof.
  intros H.
  destruct (discretized_schrodinger_ok _ _ _ _ _ _ _ _ _ _ H)
    as (main & off & eigvals & eigstates & Hd & He & Hm & HE & HS).
  exists main, off, eigvals, eigstates.
  destruct (eigh_tridiagonal_ok _ _ _ _ _ _ He)
    as (dq & eq & w & v & Hmain & Hoff & _ & _ & Hker & Hvals & _).
  assert (Hsorted : Sorted Qcle eigvals)
    by (rewrite Hvals; apply take_argsort_sorted).
  split; [exact Hd|]. split; [exact He|].
  split.
  { exists dq, eq, w, v. repeat split; try assumption.
    rewrite Hvals. apply take_argsort_perm. }
  split; [exact Hsorted|].
  split; [exact HE|].
  intros Hc. subst energies. now apply Sorted_scale.
Qed.

(** The example call: [kernel_2x2] lists its eigenvalues in descending order,
    the call returns them ascending with the states in the matching order. *)
Lemma example_result_values :
  map (map this) example_states = [[1; 1]; [1; -1 # 1]]%Q /\
  map this example_energies = [1 # 2; 3 # 2]%Q.
Proof. split; reflexivity. Qed.

Lemma eigenvalues_ascending_witness :
  exists main off eigvals eigstates,
    discretize (pointwise zero_potential) 0%Qc (Z2Qc 3) 2 1%Qc = Ok (main, off) /\
    Scipy.eigh_tridiagonal kernel_2x2 main off (0, 2 - 1) = Ok (eigvals, eigstates) /\
    (exists dq eq w v,
       main = map Fin dq /\ off = map Fin eq /\
       kernel_2x2 dq eq 1 2 = Ok (w, v) /\ Permutation w eigvals) /\
    Sorted Qcle eigvals /\
    example_energies = map (fun w => (1 / 1 * w)%Qc) eigvals /\
    ((0 <= 1 / 1)%Qc -> Sorted Qcle example_energies).
Proof.
  apply (eigenvalues_ascending kernel_2x2 (pointwise zero_potential)
           0%Qc (Z2Qc 3) 2 2 1%Qc 1%Qc example_energies example_states).
  vm_compute. reflexivity.
Defined.

Lemma discretize_inv (pot : potential) a b N mass main off :
  discretize pot a b N mass = Ok (main, off) ->
  0 <= N /\
  exists xs Vx,
    Np.linspace a b (N + 2) = Ok xs /\
    length xs = (Z.to_nat N + 2)%nat /\
    pot xs = Ok Vx /\
    (3 <= length Vx)%nat /\
    main = main_of ((b - a) / Z2Qc (N + 1)) mass Vx /\
    off = off_of ((b - a) / Z2Qc (N + 1)) (length Vx - 3).
Proof.
  intros H. destruct (Z.ltb_spec N 0) as [Hneg|HN].
  { rewrite discretize_negative_mesh in H by exact Hneg. discriminate. }
  split; [exact HN|].
  destruct (linspace_mesh a b N HN) as (xs & Hxs & Hlen & _).
  destruct (pot xs) as [Vx|x] eqn:EV.
  - exists xs, Vx.
    rewrite (discretize_eq pot a b N mass xs Vx HN Hxs EV) in H.
    destruct (Nat.leb_spec (length Vx) 2) as [Hle|Hgt]; [discriminate|].
    cbv zeta in H. injection H as <- <-.
    repeat split; auto.
  - unfold discretize in H. rewrite Hxs in H. cbn [bind] in H.
    rewrite (mesh_spacing a b N xs HN Hxs) in H. cbn [bind] in H.
    rewrite EV in H. discriminate.
Qed.

Lemma discretize_lengths (pot : potential) a b N mass main off :
  discretize pot a b N mass = Ok (main, off) ->
  length main = S (length off).
Proof.
  intros H. apply discretize_inv in H.
  destruct H as (_ & xs & Vx & _ & _ & _ & Hlen & -> & ->).
  rewrite length_main_of, length_off_of. lia.
Qed.

(** ** Independence of the end-point values *)

Lemma length_take {A : Type} (d : A) (order : list nat) (l : list A) :
  length (Np.take d order l) = length order.
Proof. unfold Np.take. apply length_map. Qed.

Lemma slice_inner_ext {A : Type} (d : A) (l1 l2 : list A) :
  length l1 = length l2 ->
  (forall i, (1 <= i)%nat -> (i + 1 < length l1)%nat -> nth i l1 d = nth i l2 d) ->
  Np.slice_inner l1 = Np.slice_inner l2.
Proof.
  intros Hlen Hnth. apply (nth_ext _ _ d d).
  - rewrite !length_slice_inner. lia.
  - intros i Hi. rewrite length_slice_inner in Hi.
    rewrite !nth_slice_inner by lia. apply Hnth; lia.
Qed.

(** C7.  Two value-returning potentials that agree at the interior mesh
    points [x_1 .. x_N] give the same result, whatever they return at the
    end points [a] and [b]. *)
Theorem boundary_values_ignored (kernel : lapack_kernel) (V1 V2 : Qc -> npfloat)
    (a b : Qc) (N k : Z) (mass hbar : Qc) :
  (forall i, (1 <= i <= Z.to_nat N)%nat ->
     V1 (mesh_point a b N i) = V2 (mesh_point a b N i)) ->
  discretized_schrodinger kernel (pointwise V1) a b N k mass hbar =
  discretized_schrodinger kernel (pointwise V2) a b N k mass hbar.
Proof.
  intros Hagree.
  assert (Hd : discretize (pointwise V1) a b N mass =
               discretize (pointwise V2) a b N mass).
  { destruct (Z.ltb_spec N 0) as [Hneg|HN].
    { now rewrite !discretize_negative_mesh. }
    destruct (linspace_mesh a b N HN) as (xs & Hxs & Hlen & _).
    rewrite (discretize_eq (pointwise V1) a b N mass xs (map V1 xs)) by auto.
    rewrite (discretize_eq (pointwise V2) a b N mass xs (map V2 xs)) by auto.
    rewrite !length_map.
    destruct (length xs <=? 2)%nat; [reflexivity|].
    cbv zeta. do 2 f_equal. unfold main_of.
    apply (slice_inner_ext NonFinite).
    - now rewrite !length_map.
    - intros i Hi1 Hi2. rewrite !length_map in Hi2.
      rewrite !map_map.
      set (g1 := fun x => fadd _ (fmul (Fin mass) (V1 x))).
      set (g2 := fun x => fadd _ (fmul (Fin mass) (V2 x))).
      rewrite nth_indep with (d' := g1 0%Qc) by (rewrite length_map; lia).
      rewrite (map_nth g1).
      rewrite nth_indep with (d' := g2 0%Qc) by (rewrite length_map; lia).
      rewrite (map_nth g2).
      unfold g1, g2.
      rewrite (linspace_mesh_point a b N xs i HN Hxs) by lia.
      rewrite Hagree by lia. reflexivity. }
  unfold discretized_schrodinger. now rewrite Hd.
Qed.

Lemma boundary_values_ignored_witness :
  discretized_schrodinger kernel_2x2 (pointwise zero_potential)
    0%Qc (Z2Qc 3) 2 2 1%Qc 1%Qc =
  discretized_schrodinger kernel_2x2 (pointwise walled_potential)
    0%Qc (Z2Qc 3) 2 2 1%Qc 1%Qc.
Proof.
  apply (boundary_values_ignored kernel_2x2 zero_potential walled_potential).
  intros i Hi.
  assert (Hcases : i = 1%nat \/ i = 2%nat) by (simpl in Hi; lia).
  destruct Hcases as [-> | ->]; vm_compute; reflexivity.
Defined.

(** The two potentials of the example differ at both end points. *)
Example walled_potential_end_points :
  walled_potential 0%Qc = NonFinite /\
  walled_potential (Z2Qc 3) = NonFinite /\
  zero_potential 0%Qc = Fin 0%Qc /\
  zero_potential (Z2Qc 3) = Fin 0%Qc.
Proof. repeat split; vm_compute; reflexivity. Qed.

(** C10.  With a potential given pointwise, a count [k] of eigenvalues
    outside [1..N] makes [discretized_schrodinger] raise: the result is an
    exception, never a pair of energies and states. *)
Theorem eigenvalue_count_out_of_range (kernel : lapack_kernel)
    (V : Qc -> result npfloat) (a b : Qc) (N k : Z) (mass hbar : Qc) :
  k < 1 \/ N < k ->
  fails (discretized_schrodinger kernel (vectorized V) a b N k mass hbar).
Proof.
  intros Hk. unfold discretized_schrodinger.
  destruct (discretize (vectorized V) a b N mass) as [[main off]|x] eqn:Hd;
    [|now eexists].
  cbn [bind].
  assert (Hlen : Np.len main = N).
  { apply discretize_inv in Hd.
    destruct Hd as (HN & xs & Vx & _ & Hxs & HV & Hlen & -> & _).
    apply mapM_length in HV. unfold Np.len.
    rewrite length_main_of. lia. }
  destruct (eigh_tridiagonal_bad_range kernel main off k) as [x Hx];
    [rewrite Hlen; exact Hk|].
  rewrite Hx. now eexists.
Qed.

Lemma eigenvalue_count_out_of_range_witness :
  fails (discretized_schrodinger kernel_2x2 (vectorized zero_potential_fn)
           0%Qc (Z2Qc 3) 2 3 1%Qc 1%Qc).
Proof.
  apply (eigenvalue_count_out_of_range kernel_2x2 zero_potential_fn
           0%Qc (Z2Qc 3) 2 3 1%Qc 1%Qc).
  right. lia.
Defined.

(* ================================================================== *)
(** * Further properties of [discretized_schrodinger] *)

(** ** Helpers *)

(** The mesh as the list of its points. *)
Lemma linspace_mesh_points (a b : Qc) (N : Z) :
  0 <= N ->
  Np.linspace a b (N + 2) = Ok (map (mesh_point a b N) (seq 0 (Z.to_nat N + 2))).
Proof.
  intros HN.
  destruct (linspace_mesh a b N HN) as (xs & Hxs & Hlen & _).
  rewrite Hxs. f_equal. apply (nth_ext _ _ 0%Qc 0%Qc).
  - now rewrite length_map, length_seq.
  - intros i Hi.
    rewrite (linspace_mesh_point a b N xs i HN Hxs) by lia.
    rewrite nth_indep with (d' := mesh_point a b N 0%nat)
      by (rewrite length_map, length_seq; lia).
    now rewrite (map_nth (mesh_point a b N)), seq_nth by lia.
Qed.

(** The discretization step on a value-returning potential, in closed
    form. *)
Lemma discretize_pointwise (V : Qc -> npfloat) (a b : Qc) (N : Z) (mass : Qc) :
  discretize (pointwise V) a b N mass =
  if N <? 0 then Raise (if N <? -2 then ValueError else IndexError)
  else if N =? 0 then Raise ValueError
  else
    let dx := ((b - a) / Z2Qc (N + 1))%Qc in
    Ok (main_of dx mass
          (map V (map (mesh_point a b N) (seq 0 (Z.to_nat N + 2)))),
        off_of dx (Z.to_nat N - 1)).
Proof.
  destruct (Z.ltb_spec N 0) as [Hneg|HN].
  { now apply discretize_negative_mesh. }
  rewrite (discretize_eq (pointwise V) a b N mass _ _ HN
             (linspace_mesh_points a b N HN) eq_refl).
  rewrite !length_map, length_seq.
  destruct (Z.eqb_spec N 0) as [->|HN0].
  - reflexivity.
  - replace (Z.to_nat N + 2 <=? 2)%nat with false
      by (symmetry; apply Nat.leb_gt; lia).
    cbv zeta. do 3 f_equal. lia.
Qed.

(** ** Shape of the diagonals *)

(** X1.  Whenever the discretization step succeeds, the off-diagonal has
    exactly one entry fewer than the main diagonal, and the size of the
    matrix is the number of samples the potential returned minus the two end
    points: the code does not compare it with [numPosSteps]. *)
Theorem diagonals_follow_potential_output (pot : potential) (a b : Qc) (N : Z)
    (mass : Qc) :
  match discretize pot a b N mass with
  | Ok (main, off) =>
      length main = S (length off) /\
      exists xs Vx,
        Np.linspace a b (N + 2) = Ok xs /\
        pot xs = Ok Vx /\
        length main = (length Vx - 2)%nat
  | Raise _ => True
  end.
Proof.
  destruct (discretize pot a b N mass) as [[main off]|x] eqn:Hd; [|exact I].
  apply discretize_inv in Hd.
  destruct Hd as (_ & xs & Vx & Hxs & _ & HV & Hlen & -> & ->).
  split.
  - rewrite length_main_of, length_off_of. lia.
  - exists xs, Vx. split; [exact Hxs|]. split; [exact HV|].
    apply length_main_of.
Qed.

(** A potential that returns five samples on a mesh of three points gives a
    3x3 matrix although [numPosSteps = 1]. *)
Example oversized_potential_diagonals :
  readback_diagonals (discretize oversized_potential 0%Qc 1%Qc 1 1%Qc) =
  Ok ([Some 4%Q; Some 4%Q; Some 4%Q], [Some (-2 # 1)%Q; Some (-2 # 1)%Q]).
Proof. vm_compute. reflexivity. Qed.

(** X2.  For potentials that return a value at every mesh point, whether the
    discretization step succeeds, the exception it raises and the
    off-diagonal it returns depend on [a], [b] and [numPosSteps] only: not
    on the potential and not on the mass. *)
Theorem off_diagonal_independent (V1 V2 : Qc -> npfloat) (a b : Qc) (N : Z)
    (mass1 mass2 : Qc) :
  match discretize (pointwise V1) a b N mass1,
        discretize (pointwise V2) a b N mass2 with
  | Ok (main1, off1), Ok (main2, off2) =>
      off1 = off2 /\ length main1 = length main2
  | Raise x1, Raise x2 => x1 = x2
  | _, _ => False
  end.
Proof.
  rewrite !discretize_pointwise.
  destruct (N <? 0); [reflexivity|].
  destruct (N =? 0); [reflexivity|].
  cbv zeta. split; [reflexivity|].
  now rewrite !length_main_of, !length_map.
Qed.

(** ** Degenerate meshes *)

(** X3.  With a negative [numPosSteps] the call raises before the potential
    is evaluated and before the eigensolver is called: [ValueError] from
    [np.linspace] below [-2], [IndexError] from [np.diff(xs)[0]] at [-2] and
    [-1], whatever the potential and the kernel. *)
Theorem negative_mesh_raises_early (kernel : lapack_kernel) (pot : potential)
    (a b : Qc) (N k : Z) (mass hbar : Qc) :
  N < 0 ->
  discretized_schrodinger kernel pot a b N k mass hbar =
  Raise (if N <? -2 then ValueError else IndexError).
Proof.
  intros HN. unfold discretized_schrodinger.
  now rewrite discretize_negative_mesh.
Qed.

Lemma negative_mesh_raises_early_witness :
  discretized_schrodinger kernel_2x2 (vectorized singular_potential_fn)
    0%Qc 1%Qc (-1) 1 1%Qc 1%Qc =
  Raise (if -1 <? -2 then ValueError else IndexError).
Proof.
  apply (negative_mesh_raises_early kernel_2x2 (vectorized singular_potential_fn)
           0%Qc 1%Qc (-1) 1 1%Qc 1%Qc).
  lia.
Defined.



(** ** A mass of zero *)

(** X5.  With [mass = 0] the call never returns: when the discretization
    step and the eigensolver call both succeed, the final [hbar / mass]
    raises [ZeroDivisionError]; an earlier exception takes precedence. *)
Theorem zero_mass_never_returns (kernel : lapack_kernel) (pot : potential)
    (a b : Qc) (N k : Z) (hbar : Qc) :
  discretized_schrodinger kernel pot a b N k 0%Qc hbar =
  match discretize pot a b N 0%Qc with
  | Raise x => Raise x
  | Ok (main, off) =>
      match Scipy.eigh_tridiagonal kernel main off (0, k - 1) with
      | Raise x => Raise x
      | Ok _ => Raise ZeroDivisionError
      end
  end.
Proof.
  unfold discretized_schrodinger.
  destruct (discretize pot a b N 0%Qc) as [[main off]|x]; [|reflexivity].
  cbn [bind].
  destruct (Scipy.eigh_tridiagonal kernel main off (0, k - 1)) as [[w v]|x];
    reflexivity.
Qed.

(** ** The call on a valid input *)

(** The eigensolver call on finite diagonals of matching lengths. *)
Lemma eigh_tridiagonal_finite (kernel : lapack_kernel) (dq eq : list Qc) (k : Z) :
  length dq = S (length eq) ->
  Scipy.eigh_tridiagonal kernel (map Fin dq) (map Fin eq) (0, k - 1) =
  if (1 <=? k) && (k <=? Np.len dq) then
    match kernel dq eq 1 k with
    | Raise x => Raise x
    | Ok (w, v) =>
        Ok (Np.take 0%Qc (Np.argsort w) w, reordered (Np.argsort w) v)
    end
  else Raise ValueError.
Proof.
  intros Hlen. unfold Scipy.eigh_tridiagonal.
  rewrite !asarray_validated_fin. cbn [bind].
  replace (Np.len dq =? Np.len eq + 1) with true
    by (symmetry; apply Z.eqb_eq; unfold Np.len; lia).
  cbn [negb]. rewrite check_select_spec.
  destruct ((1 <=? k) && (k <=? Np.len dq)); [|reflexivity].
  cbn [bind].
  destruct (kernel dq eq 1 k) as [[w v]|x]; [|reflexivity].
  cbn [bind]. unfold reordered. now rewrite length_take.
Qed.

Lemma hamiltonian_lengths (V : Qc -> Qc) (a b : Qc) (N : Z) (mass : Qc) :
  1 <= N ->
  length (fst (hamiltonian V a b N mass)) =
    S (length (snd (hamiltonian V a b N mass))) /\
  Np.len (fst (hamiltonian V a b N mass)) = N.
Proof.
  intros HN. destruct (length_hamiltonian V a b N mass) as [H1 H2].
  unfold Np.len. rewrite H1, H2. lia.
Qed.

(** X8.  On a non-degenerate domain with a finite-valued potential and at
    least one interior point, a count [k] outside [1..N] raises [ValueError]
    whatever the kernel, the mass and [hbar]: the range check refuses the
    call before LAPACK is reached. *)
Theorem bad_count_raises_value_error (kernel : lapack_kernel) (V : Qc -> Qc)
    (a b : Qc) (N k : Z) (mass hbar : Qc) :
  a <> b ->
  1 <= N ->
  k < 1 \/ N < k ->
  discretized_schrodinger kernel (finite_potential V) a b N k mass hbar =
  Raise ValueError.
Proof.
  intros Hab HN Hk.
  destruct (hamiltonian_lengths V a b N mass HN) as [Hlen HlenN].
  unfold discretized_schrodinger.
  rewrite discretize_hamiltonian by assumption. cbn [bind].
  rewrite eigh_tridiagonal_finite by exact Hlen. rewrite HlenN.
  replace ((1 <=? k) && (k <=? N)) with false; [reflexivity|].
  symmetry. apply andb_false_iff.
  destruct Hk; [left | right]; apply Z.leb_gt; lia.
Qed.

Lemma bad_count_raises_value_error_witness :
  discretized_schrodinger kernel_2x2 (finite_potential unit_potential)
    0%Qc (Z2Qc 3) 2 0 0%Qc 1%Qc = Raise ValueError.
Proof.
  apply (bad_count_raises_value_error kernel_2x2 unit_potential 0%Qc (Z2Qc 3)
           2 0 0%Qc 1%Qc).
  - discriminate.
  - lia.
  - left. lia.
Defined.

(** ** How the mass enters the matrix *)

Lemma fmul_one_l (y : npfloat) : fmul (Fin 1%Qc) y = y.
Proof. destruct y as [q|]; [|reflexivity]. cbn [fmul]. f_equal. ring. Qed.

(** X10.  The mass enters the matrix only through the product
    [mass * V]: a call with mass [m <> 0], potential [V] and [hbar] returns
    what the call with mass [1], potential [m * V] and [hbar / m]
    returns. *)
Theorem mass_absorbed_in_potential (kernel : lapack_kernel) (V : Qc -> npfloat)
    (a b : Qc) (N k : Z) (mass hbar : Qc) :
  mass <> 0%Qc ->
  discretized_schrodinger kernel (pointwise V) a b N k mass hbar =
  discretized_schrodinger kernel (pointwise (fun x => fmul (Fin mass) (V x)))
    a b N k 1%Qc (hbar / mass)%Qc.
Proof.
  intros Hm.
  assert (Hd : discretize (pointwise V) a b N mass =
               discretize (pointwise (fun x => fmul (Fin mass) (V x))) a b N 1%Qc).
  { rewrite !discretize_pointwise.
    destruct (N <? 0); [reflexivity|].
    destruct (N =? 0); [reflexivity|].
    cbv zeta. do 2 f_equal. unfold main_of. f_equal.
    rewrite !map_map. apply map_ext. intros j.
    now rewrite fmul_one_l. }
  unfold discretized_schrodinger. rewrite Hd.
  destruct (discretize _ a b N 1%Qc) as [[main off]|x]; [|reflexivity].
  cbn [bind].
  destruct (Scipy.eigh_tridiagonal kernel main off (0, k - 1))
    as [[eigvals eigstates]|x]; [|reflexivity].
  cbn [bind].
  rewrite py_div_ok by exact Hm.
  rewrite py_div_ok by exact Q_apart_0_1.
  cbn [bind]. do 2 f_equal. apply map_ext. intros lam.
  f_equal. field. repeat split; first [exact Hm | exact Q_apart_0_1].
Qed.

Lemma mass_absorbed_in_potential_witness :
  discretized_schrodinger kernel_2x2 (pointwise zero_potential)
    0%Qc (Z2Qc 3) 2 2 (Z2Qc 4) 1%Qc =
  discretized_schrodinger kernel_2x2
    (pointwise (fun x => fmul (Fin (Z2Qc 4)) (zero_potential x)))
    0%Qc (Z2Qc 3) 2 2 1%Qc (1 / Z2Qc 4)%Qc.
Proof.
  apply (mass_absorbed_in_potential kernel_2x2 zero_potential 0%Qc (Z2Qc 3)
           2 2 (Z2Qc 4) 1%Qc).
  discriminate.
Defined.

(* ================================================================== *)
(** * Properties of the function over binary64 numbers *)

(** ** Lists *)

Lemma nth_map_in {A B : Type} (f : A -> B) (l : list A) (i : nat) (d : B)
    (d' : A) :
  (i < length l)%nat -> nth i (map f l) d = f (nth i l d').
Proof.
  intros Hi. rewrite (nth_indep (map f l) d (f d'))
    by (rewrite length_map; exact Hi).
  apply map_nth.
Qed.

(** ** The mesh *)

Lemma float_set_last_snoc (l : list float) (x v : float) :
  B64.set_last (l ++ [x]) v = l ++ [v].
Proof.
  unfold B64.set_last. destruct (l ++ [x]) as [|y t] eqn:E.
  - destruct l; discriminate.
  - rewrite <- E, removelast_last. reflexivity.
Qed.

(** The mesh as the list of its samples. *)
Lemma float_linspace_mesh_points (a b : float) (N : Z) :
  0 <= N ->
  B64.linspace a b (N + 2) =
  Ok (map (B64.mesh_point a b N) (seq 0 (Z.to_nat N + 2))).
Proof.
  intros HN. unfold B64.linspace.
  replace (N + 2 <? 0) with false by (symmetry; apply Z.ltb_ge; lia).
  replace (N + 2 - 1) with (N + 1) by lia.
  replace (0 <? N + 1) with true by (symmetry; apply Z.ltb_lt; lia).
  replace (1 <? N + 2) with true by (symmetry; apply Z.ltb_lt; lia).
  cbv zeta. f_equal.
  replace (Z.to_nat (N + 2)) with (S (Z.to_nat N + 1)) by lia.
  replace (Z.to_nat N + 2)%nat with (S (Z.to_nat N + 1)) by lia.
  set (m := (Z.to_nat N + 1)%nat).
  set (h := fun i : nat =>
              ((if ((b - a) / B64.of_Z (N + 1) =? 0)%float
                then B64.of_nat i / B64.of_Z (N + 1) * (b - a)
                else B64.of_nat i * ((b - a) / B64.of_Z (N + 1))) + a)%float).
  assert (Hy : map (fun v => (v + a)%float)
                 (if ((b - a) / B64.of_Z (N + 1) =? 0)%float
                  then map (fun i => (i / B64.of_Z (N + 1) * (b - a))%float)
                           (B64.arange (S m))
                  else map (fun i => (i * ((b - a) / B64.of_Z (N + 1)))%float)
                           (B64.arange (S m)))
               = map h (seq 0 (S m))).
  { unfold B64.arange, h.
    destruct ((b - a) / B64.of_Z (N + 1) =? 0)%float;
      rewrite !map_map; reflexivity. }
  rewrite Hy. rewrite seq_S, !map_app. cbn [map Nat.add].
  rewrite float_set_last_snoc. f_equal.
  - apply map_ext_in. intros i Hi. apply in_seq in Hi.
    unfold B64.mesh_point, h. fold m.
    replace (i =? m)%nat with false by (symmetry; apply Nat.eqb_neq; lia).
    reflexivity.
  - unfold B64.mesh_point. fold m. rewrite Nat.eqb_refl. reflexivity.
Qed.

(** ** The discretization step *)

Lemma float_length_main_of (L : B64.libs) (dx mass : float) (Vx : list float) :
  length (B64.main_of L dx mass Vx) = (length Vx - 2)%nat.
Proof. unfold B64.main_of. now rewrite length_slice_inner, length_map. Qed.

Lemma float_length_off_of (L : B64.libs) (dx : float) (n : nat) :
  length (B64.off_of L dx n) = n.
Proof. unfold B64.off_of. now rewrite length_map, repeat_length. Qed.

Lemma float_nth_main_of (L : B64.libs) (dx mass : float) (Vx : list float)
    (i : nat) :
  (i + 2 < length Vx)%nat ->
  nth i (B64.main_of L dx mass Vx) 0%float =
  (B64.power_m2 L dx + mass * nth (S i) Vx 0)%float.
Proof.
  intros Hi. unfold B64.main_of.
  rewrite nth_slice_inner by (rewrite length_map; exact Hi).
  set (f := fun v => (B64.power_m2 L dx + mass * v)%float).
  rewrite (nth_indep (map f Vx) 0%float (f 0%float))
    by (rewrite length_map; lia).
  apply map_nth.
Qed.

Lemma float_nth_off_of (L : B64.libs) (dx : float) (n i : nat) :
  (i < n)%nat ->
  nth i (B64.off_of L dx n) 0%float = (B64.power_m2 L dx * (-0.5) * 1)%float.
Proof.
  intros Hi. unfold B64.off_of.
  set (f := fun o => (B64.power_m2 L dx * (-0.5) * o)%float).
  rewrite (nth_indep (map f (repeat 1%float n)) 0%float (f 0%float))
    by (rewrite length_map, repeat_length; lia).
  rewrite map_nth. unfold f. f_equal.
  apply nth_repeat_lt. exact Hi.
Qed.

(** The discretization step on a value-returning potential, in closed
    form. *)
Lemma float_discretize_pointwise (L : B64.libs) (V : float -> float)
    (a b : float) (N : Z) (mass : float) :
  1 <= N ->
  B64.discretize L (B64.pointwise V) a b N mass =
  Ok (B64.main_of L (B64.spacing a b N) mass
        (map V (map (B64.mesh_point a b N) (seq 0 (Z.to_nat N + 2)))),
      B64.off_of L (B64.spacing a b N) (Z.to_nat N - 1)).
Proof.
  intros HN. unfold B64.discretize.
  rewrite float_linspace_mesh_points by lia. cbn [bind].
  assert (Hdx : B64.getitem0
                  (B64.diff (map (B64.mesh_point a b N)
                                 (seq 0 (Z.to_nat N + 2))))
                = Ok (B64.spacing a b N)).
  { replace (Z.to_nat N + 2)%nat with (S (S (Z.to_nat N))) by lia.
    reflexivity. }
  rewrite Hdx. cbn [bind]. unfold B64.pointwise. cbn [bind].
  fold (B64.main_of L (B64.spacing a b N) mass
          (map V (map (B64.mesh_point a b N) (seq 0 (Z.to_nat N + 2))))).
  unfold B64.ones, Np.len.
  rewrite float_length_main_of, !length_map, length_seq.
  replace (Z.of_nat (Z.to_nat N + 2 - 2) - 1 <? 0) with false
    by (symmetry; apply Z.ltb_ge; lia).
  cbn [bind]. unfold B64.off_of.
  replace (Z.to_nat (Z.of_nat (Z.to_nat N + 2 - 2) - 1))
    with (Z.to_nat N - 1)%nat by lia.
  reflexivity.
Qed.

(** C1 (amended).  For every value-returning potential [V], all bounds
    [a], [b], every mass and every [N >= 1], the mesh has [N + 2] samples:
    the last is [b], and for [i <= N] sample [x_i] is the rounded
    [i * step + a] with the rounded [step = (b - a) / (N + 1)] (or
    [(i / (N + 1)) * (b - a) + a] when [step] is zero); [dx] is the rounded
    difference [x_1 - x_0]; the main diagonal has length [N] with
    [main[i] = np.power(dx, -2.0) + mass * V(x_(i+1))], and the off-diagonal
    has length [N - 1] with [off[i] = np.power(dx, -2.0) * -0.5 * 1.0], all
    in binary64 arithmetic. *)
Theorem float_discretize_tridiagonal (L : B64.libs) (V : float -> float)
    (a b : float) (N : Z) (mass : float) :
  1 <= N ->
  let n := Z.to_nat N in
  let x := B64.mesh_point a b N in
  let step := ((b - a) / B64.of_Z (N + 1))%float in
  let dx := (x 1%nat - x 0%nat)%float in
  exists main off,
    B64.linspace a b (N + 2) = Ok (map x (seq 0 (n + 2))) /\
    x (n + 1)%nat = b /\
    (forall i, (i <= n)%nat ->
       x i = ((if (step =? 0)%float
               then B64.of_nat i / B64.of_Z (N + 1) * (b - a)
               else B64.of_nat i * step) + a)%float) /\
    B64.discretize L (B64.pointwise V) a b N mass = Ok (main, off) /\
    length main = n /\
    length off = (n - 1)%nat /\
    (forall i, (i < n)%nat ->
       nth i main 0%float = (B64.power_m2 L dx + mass * V (x (S i)))%float) /\
    (forall i, (i < n - 1)%nat ->
       nth i off 0%float = (B64.power_m2 L dx * (-0.5) * 1)%float).
Proof.
  intros HN n x step dx.
  exists (B64.main_of L (B64.spacing a b N) mass
            (map V (map x (seq 0 (n + 2))))),
         (B64.off_of L (B64.spacing a b N) (n - 1)).
  split; [apply float_linspace_mesh_points; lia|].
  split.
  { unfold x, B64.mesh_point. fold n. rewrite Nat.eqb_refl. reflexivity. }
  split.
  { intros i Hi. unfold x, B64.mesh_point. fold n.
    replace (i =? n + 1)%nat with false by (symmetry; apply Nat.eqb_neq; lia).
    reflexivity. }
  split; [apply float_discretize_pointwise; exact HN|].
  split; [rewrite float_length_main_of, !length_map, length_seq; lia|].
  split; [apply float_length_off_of|].
  split.
  - intros i Hi.
    rewrite float_nth_main_of by (rewrite !length_map, length_seq; lia).
    fold x. unfold B64.spacing. fold x. fold dx.
    rewrite map_map.
    rewrite (nth_map_in (fun j => V (x j)) (seq 0 (n + 2)) (S i) 0%float 0%nat)
      by (rewrite length_seq; lia).
    rewrite seq_nth by lia. reflexivity.
  - intros i Hi. rewrite float_nth_off_of by exact Hi. reflexivity.
Qed.

(** The mesh of the notebook's example: [a = -15], [b = 15],
    [N = 100000]. *)
Lemma float_discretize_tridiagonal_witness :
  exists main off,
    B64.discretize B64.example_libs (B64.pointwise B64.free_particle)
      (-15)%float 15%float 100000 4%float = Ok (main, off) /\
    length main = Z.to_nat 100000 /\
    length off = (Z.to_nat 100000 - 1)%nat /\
    nth 0 main 0%float =
      (B64.power_m2 B64.example_libs 0.00029999700002925067
       + 4 * B64.free_particle (-14.999700002999971))%float /\
    nth 0 off 0%float =
      (B64.power_m2 B64.example_libs 0.00029999700002925067 * (-0.5) * 1)%float.
Proof.
  destruct (float_discretize_tridiagonal B64.example_libs B64.free_particle
              (-15)%float 15%float 100000 4%float)
    as (main & off & _ & _ & _ & Hd & Hm & Ho & Hmain & Hoff); [lia|].
  exists main, off.
  split; [exact Hd|]. split; [exact Hm|]. split; [exact Ho|].
  split.
  - rewrite (Hmain 0%nat) by lia.
    replace (B64.mesh_point (-15) 15 100000 1 - B64.mesh_point (-15) 15 100000 0)%float
      with 0.00029999700002925067%float by (vm_compute; reflexivity).
    reflexivity.
  - rewrite (Hoff 0%nat) by lia.
    replace (B64.mesh_point (-15) 15 100000 1 - B64.mesh_point (-15) 15 100000 0)%float
      with 0.00029999700002925067%float by (vm_compute; reflexivity).
    reflexivity.
Defined.

(** On the mesh of the notebook's example the spacing that the code
    computes, [np.diff(xs)[0]], is [0.00029999700002925067], while
    [(b - a) / (N + 1)] is [0.0002999970000299997]; and the second
    difference [xs[2] - xs[1]] is not the first. *)
Lemma spacing_differs_from_quotient :
  (xs <- B64.linspace (-15)%float 15%float (100000 + 2) ;;
   B64.getitem0 (B64.diff xs)) = Ok 0.00029999700002925067%float /\
  ((15 - (-15)) / B64.of_Z (100000 + 1))%float = 0.0002999970000299997%float /\
  (0.00029999700002925067 =? 0.0002999970000299997)%float = false /\
  (xs <- B64.linspace (-15)%float 15%float (100000 + 2) ;;
   Ok (nth 2 xs 0 - nth 1 xs 0)%float) = Ok 0.00029999700003102703%float.
Proof.
  rewrite float_linspace_mesh_points by lia. cbn [bind].
  replace (Z.to_nat 100000 + 2)%nat with (S (S (S (Z.to_nat 100000 - 1))))
    by lia.
  cbn [seq map nth B64.diff B64.getitem0 combine tl].
  repeat split; vm_compute; reflexivity.
Qed.

(** ** The eigensolver call *)

Lemma float_asarray_validated_finite (d : list float) :
  forallb is_finite d = true -> B64.asarray_validated d = Ok d.
Proof. intros H. unfold B64.asarray_validated. now rewrite H. Qed.

(** The eigensolver call on finite diagonals of matching lengths and an
    index range inside the matrix. *)
Lemma float_eigh_tridiagonal_finite (L : B64.libs) (d e : list float) (k : Z) :
  forallb is_finite d = true ->
  forallb is_finite e = true ->
  length d = S (length e) ->
  1 <= k <= Np.len d ->
  B64.eigh_tridiagonal L d e (0, k - 1) =
  match d with
  | [d0] => Ok ([d0], [[1%float]])
  | _ =>
      ' (w, v) <- B64.lapack L d e 1 k ;;
      Ok (Np.take 0%float (B64.argsort L w) w,
          map (firstn (length (Np.take 0%float (B64.argsort L w) w)))
              (map (Np.take 0%float (B64.argsort L w)) v))
  end.
Proof.
  intros Fd Fe Hlen Hk. unfold B64.eigh_tridiagonal.
  rewrite (float_asarray_validated_finite d Fd). cbn [bind].
  rewrite (float_asarray_validated_finite e Fe). cbn [bind].
  replace (Np.len d =? Np.len e + 1) with true
    by (symmetry; apply Z.eqb_eq; unfold Np.len; lia).
  cbn [negb]. rewrite check_select_spec.
  replace (1 <=? k) with true by (symmetry; apply Z.leb_le; lia).
  replace (k <=? Np.len d) with true by (symmetry; apply Z.leb_le; lia).
  cbn [andb bind]. reflexivity.
Qed.

Lemma float_discretize_lengths (L : B64.libs) (pot : B64.potential)
    (a b : float) (N : Z) (mass : float) (d e : list float) :
  B64.discretize L pot a b N mass = Ok (d, e) ->
  length d = S (length e).
Proof.
  unfold B64.discretize. intros H.
  destruct (B64.linspace a b (N + 2)) as [xs|]; [|discriminate].
  cbn [bind] in H.
  destruct (B64.getitem0 (B64.diff xs)) as [dx|]; [|discriminate].
  cbn [bind] in H.
  destruct (pot xs) as [Vx|]; [|discriminate].
  cbn [bind] in H. unfold B64.ones in H.
  destruct (Z.ltb_spec
              (Np.len (Np.slice_inner
                 (map (fun v => (B64.power_m2 L dx + mass * v)%float) Vx)) - 1)
              0) as [Hlt|Hge]; [discriminate|].
  cbn [bind] in H. injection H as <- <-.
  rewrite length_map, repeat_length. unfold Np.len in *. lia.
Qed.

(** ** Energies and states *)






(** The value of the call of the previous lemma: LAPACK's values [2; 1]
    come back sorted and scaled by [3 / 2], and state [i] is the column of
    LAPACK's array that belongs to energy [i]. *)
Example example_call_value :
  B64.discretized_schrodinger B64.example_libs
    (B64.pointwise B64.free_particle) 0%float 4%float 3 2 2%float 3%float =
  Ok ([1.5; 3]%float, [[2; 4; 6]; [1; 3; 5]]%float).
Proof. vm_compute. reflexivity. Qed.

(** ** Scaling by [hbar] *)



(** ** A mesh with a single interior point *)

(** C9 (amended).  For [N = 1] and [k = 1] and a value-returning potential,
    the mesh is [x_0, x_1, b] with [x_i = i * step + a] for the rounded
    [step = (b - a) / 2], [dx] is the rounded [x_1 - x_0], and the
    discretization returns the one-entry diagonal
    [d0 = np.power(dx, -2.0) + mass * V(x_1)] with an empty off-diagonal.
    The call raises [ValueError] if [d0] is not finite; otherwise it raises
    [ZeroDivisionError] if [mass] is zero, and otherwise returns the one
    energy [(hbar/mass) * d0] and the state array [[1.]], without a call to
    LAPACK. *)
Theorem float_single_interior_point (L : B64.libs) (V : float -> float)
    (a b mass hbar : float) :
  let x0 := B64.mesh_point a b 1 0 in
  let x1 := B64.mesh_point a b 1 1 in
  let dx := (x1 - x0)%float in
  let d0 := (B64.power_m2 L dx + mass * V x1)%float in
  B64.discretize L (B64.pointwise V) a b 1 mass = Ok ([d0], []) /\
  B64.discretized_schrodinger L (B64.pointwise V) a b 1 1 mass hbar =
    if is_finite d0 then
      if (mass =? 0)%float then Raise ZeroDivisionError
      else Ok ([(hbar / mass * d0)%float], [[1%float]])
    else Raise ValueError.
Proof.
  intros x0 x1 dx d0.
  assert (Hd : B64.discretize L (B64.pointwise V) a b 1 mass = Ok ([d0], [])).
  { rewrite float_discretize_pointwise by lia. reflexivity. }
  split; [exact Hd|].
  unfold B64.discretized_schrodinger. rewrite Hd. cbn [bind].
  unfold B64.eigh_tridiagonal, B64.asarray_validated.
  cbn [forallb]. rewrite andb_true_r.
  destruct (is_finite d0); [|reflexivity].
  cbn [bind]. rewrite check_select_spec.
  change (Np.len [d0]) with 1. cbn [bind Np.len length negb Z.eqb Z.leb andb].
  change (negb (1 =? 0 + 1)) with false. cbv iota.
  change ((1 <=? 1) && (1 <=? 1)) with true. cbv iota. cbn [bind].
  unfold B64.py_div. destruct (mass =? 0)%float; reflexivity.
Qed.

(** With [a = 1] and [b] the next binary64 number after [1], [(b - a) / 2]
    is not zero but the first two mesh samples are equal: [dx] is zero,
    the diagonal entry is [inf] and
    the call raises [ValueError], although [a < b], [N = 1], [k = 1],
    [mass = 1] and the potential is zero. *)
Lemma single_interior_point_overflow :
  (1 <? next_up 1)%float = true /\
  ((next_up 1 - 1) / 2 =? 0)%float = false /\
  B64.spacing 1%float (next_up 1) 1 = 0%float /\
  B64.discretize B64.example_libs (B64.pointwise B64.free_particle)
    1%float (next_up 1) 1 1%float = Ok ([infinity], []) /\
  B64.discretized_schrodinger B64.example_libs
    (B64.pointwise B64.free_particle) 1%float (next_up 1) 1 1 1%float 1%float =
    Raise ValueError.
Proof. repeat split; vm_compute; reflexivity. Qed.

(** ** The call on finite diagonals *)

(** X7.  When the discretization step returns finite diagonals [(d, e)] of
    a matrix of size at least 2 and [1 <= k <= len(d)], LAPACK is called on
    [(d, e)] with the index range [1..k].  An exception it raises
    propagates, also when [mass] is zero; otherwise a zero [mass] raises
    [ZeroDivisionError], and a non-zero [mass] returns LAPACK's values
    reordered by [argsort] and scaled by [hbar/mass], with the columns of
    LAPACK's array reordered alike, cut to the number of values, and
    transposed. *)
Theorem float_valid_call_closed_form (L : B64.libs) (pot : B64.potential)
    (a b : float) (N k : Z) (mass hbar : float) (d e : list float) :
  B64.discretize L pot a b N mass = Ok (d, e) ->
  forallb is_finite d = true ->
  forallb is_finite e = true ->
  (2 <= length d)%nat ->
  1 <= k <= Np.len d ->
  B64.discretized_schrodinger L pot a b N k mass hbar =
  match B64.lapack L d e 1 k with
  | Raise x => Raise x
  | Ok (w, v) =>
      if (mass =? 0)%float then Raise ZeroDivisionError
      else
        let order := B64.argsort L w in
        Ok (map (fun lam => (hbar / mass * lam)%float)
                (Np.take 0%float order w),
            B64.transpose
              (map (firstn (length order))
                   (map (Np.take 0%float order) v)))
  end.
Proof.
  intros Hd Fd Fe H2 Hk.
  assert (Hlen : length d = S (length e))
    by (eapply float_discretize_lengths; exact Hd).
  unfold B64.discretized_schrodinger. rewrite Hd. cbn [bind].
  rewrite (float_eigh_tridiagonal_finite L d e k Fd Fe Hlen Hk).
  destruct d as [|d0 [|d1 t]]; [cbn [length] in H2; lia
                               |cbn [length] in H2; lia|].
  destruct (B64.lapack L (d0 :: d1 :: t) e 1 k) as [[w v]|x]; [|reflexivity].
  cbn [bind]. unfold B64.py_div.
  destruct (mass =? 0)%float; [reflexivity|].
  cbn [bind]. rewrite length_take. reflexivity.
Qed.

(** A 3x3 matrix, [k = 2], [mass = 4] and [hbar = 2]: LAPACK's values
    [2; 1] come back as [1; 2] scaled by [2 / 4]. *)
Lemma float_valid_call_closed_form_witness :
  B64.discretized_schrodinger B64.example_libs
    (B64.pointwise B64.free_particle) 0%float 4%float 3 2 4%float 2%float =
  Ok ([0.5; 1]%float, [[2; 4; 6]; [1; 3; 5]]%float).
Proof.
  rewrite (float_valid_call_closed_form B64.example_libs
             (B64.pointwise B64.free_particle) 0%float 4%float 3 2
             4%float 2%float [1; 1; 1]%float [-0.5; -0.5]%float).
  - vm_compute. reflexivity.
  - vm_compute. reflexivity.
  - reflexivity.
  - reflexivity.
  - cbn [length]. lia.
  - unfold Np.len. cbn [length]. lia.
Defined.
